(** * wordlist-oracle: a shallow embedding of [wordlist-oracle.py]

    The development follows the source file top to bottom: the Python
    values the script manipulates ([bytes], [str], [set], exceptions),
    the library calls it relies on ([bytes.find], [bytes.split],
    [base64.b64decode], [bytes.decode], [str.encode], [hashlib.sha256],
    [round]), then [should_include], [load_superdic], [load_candidate]
    and [main], and finally the properties of the word-list comparison
    core. *)

From Stdlib Require Import ZArith List Bool Lia Floats Uint63.
From stdpp Require Import gmap list strings.

Open Scope Z_scope.

#[local] Set Warnings "-clear-no-such-hyp".

(** ** Python values *)

(** A [bytes] object is a sequence of integers in [0, 256); a [str] is a
    sequence of Unicode code points in [0, 0x10FFFF]. *)
Abbreviation bytes := (list Z) (only parsing).
Abbreviation str := (list Z) (only parsing).

Definition is_byte (b : Z) : Prop := 0 <= b < 256.
Definition is_bytes (l : bytes) : Prop := Forall is_byte l.

(** Code points that [str.encode('utf-8')] accepts: everything a [str]
    can hold except the surrogates U+D800..U+DFFF. *)
Definition is_scalar (c : Z) : Prop :=
  (0 <= c < 55296) \/ (57344 <= c <= 1114111).

(** The exceptions the script can end with.  [SystemExit] is
    [sys.exit(1)]; the others are raised by library calls and are not
    caught anywhere in the script. *)
Inductive exn : Type :=
  | SystemExit (code : Z)
  | ValueError
  | BinasciiError
  | UnicodeEncodeError
  | ZeroDivisionError.

Inductive result (A : Type) : Type :=
  | Ok (a : A)
  | Raise (e : exn).
Arguments Ok {A} a.
Arguments Raise {A} e.

(** Sequencing of statements that may raise: the first exception ends
    the computation.  The instances give [x ← r; k] and [f <$> r]. *)
#[global] Instance result_ret : MRet result := fun A a => Ok a.
#[global] Instance result_bind : MBind result := fun A B k r =>
  match r with
  | Ok a => k a
  | Raise e => Raise e
  end.
#[global] Instance result_fmap : FMap result := fun A B f r =>
  match r with
  | Ok a => Ok (f a)
  | Raise e => Raise e
  end.

Definition is_ok {A} (r : result A) : bool :=
  match r with Ok _ => true | Raise _ => false end.

(** ** Sequence operations shared by [bytes] and [str] *)

Fixpoint starts_with (sub l : list Z) : bool :=
  match sub, l with
  | [], _ => true
  | _ :: _, [] => false
  | a :: sub', b :: l' => (a =? b) && starts_with sub' l'
  end.

(** [l.find(sub)] scanning from offset [i]: the lowest index at which
    [sub] occurs, or [-1]. *)
Fixpoint find_from (sub l : list Z) (i : Z) : Z :=
  if starts_with sub l then i
  else match l with
       | [] => -1
       | _ :: l' => find_from sub l' (i + 1)
       end.

Definition seq_find (sub l : list Z) : Z := find_from sub l 0.

(** [sub in l] *)
Definition seq_contains (sub l : list Z) : bool :=
  negb (seq_find sub l =? -1).

(** [l.index(sub)]: like [find], but raises [ValueError] when absent. *)
Definition seq_index (sub l : list Z) : result Z :=
  let i := seq_find sub l in
  if i =? -1 then Raise ValueError else Ok i.

(** [l.split(sep)] for a non-empty separator: cut at every
    non-overlapping occurrence, scanning left to right.  [skip] counts the
    separator bytes still to be passed over, [cur] is the current piece,
    reversed. *)
Fixpoint split_aux (sep : list Z) (skip : nat) (cur l : list Z) : list (list Z) :=
  match l with
  | [] => [rev cur]
  | b :: l' =>
      match skip with
      | S k => split_aux sep k cur l'
      | O =>
          if starts_with sep l
          then rev cur :: split_aux sep (Nat.pred (length sep)) [] l'
          else split_aux sep O (b :: cur) l'
      end
  end.

Definition seq_split (sep l : list Z) : list (list Z) := split_aux sep O [] l.

(** Slices [l[:i]] and [l[i:]] for a non-negative index. *)
Definition slice_to (i : Z) (l : list Z) : list Z := take (Z.to_nat i) l.
Definition slice_from (i : Z) (l : list Z) : list Z := drop (Z.to_nat i) l.

(** [len(l)] *)
Definition len (l : list Z) : Z := Z.of_nat (length l).

(** ** Module constants (lines 56-57) *)

(** [KEY = b'7AVFU8PP'] *)
Definition KEY : bytes := [55; 65; 86; 70; 85; 56; 80; 80].

(** [MAX_HASH = 2 ** 256] *)
Definition MAX_HASH : Z := 2 ^ 256.

(** [b'[Words]\r\n'] and [b'\r\n'] *)
Definition WORDS_MARKER : bytes := [91; 87; 111; 114; 100; 115; 93; 13; 10].
Definition CRLF : bytes := [13; 10].

(** ['='], [';1'], [';2'] *)
Definition EQ_SIGN : str := [61].
Definition VARIANT_1 : str := [59; 49].
Definition VARIANT_2 : str := [59; 50].

(** ** [base64.b64decode] *)

(** [table_a2b_base64]: the value of a Base64 alphabet character, or
    [64] for every other byte. *)
Definition table_a2b_base64 (c : Z) : Z :=
  if (65 <=? c) && (c <=? 90) then c - 65
  else if (97 <=? c) && (c <=? 122) then c - 71
  else if (48 <=? c) && (c <=? 57) then c + 4
  else if c =? 43 then 62
  else if c =? 47 then 63
  else 64.

(** State of the decoding loop of [binascii.a2b_base64]: position in the
    current quad, bits left over from the previous character, number of
    consecutive pad characters seen, and the output so far (reversed). *)
Record a2b_state : Type := A2B {
  quad_pos : Z;
  leftchar : Z;
  pads : Z;
  bin_data : list Z
}.

(** The loop of [binascii.a2b_base64] in its default, non-strict mode,
    which is what [base64.b64decode(line)] runs: characters outside the
    alphabet are skipped, a pad sequence that completes a quad ends the
    input, and data that stops in the middle of a quad is an error. *)
Fixpoint a2b_loop (st : a2b_state) (ascii : bytes) : result bytes :=
  match ascii with
  | [] =>
      if quad_pos st =? 0 then Ok (rev (bin_data st)) else Raise BinasciiError
  | c :: ascii' =>
      if c =? 61 then
        if 2 <=? quad_pos st then
          if 4 <=? quad_pos st + (pads st + 1)
          then Ok (rev (bin_data st))
          else a2b_loop (A2B (quad_pos st) (leftchar st) (pads st + 1) (bin_data st)) ascii'
        else a2b_loop st ascii'
      else
        let this_ch := table_a2b_base64 c in
        if 64 <=? this_ch then a2b_loop st ascii'
        else if quad_pos st =? 0 then
          a2b_loop (A2B 1 this_ch 0 (bin_data st)) ascii'
        else if quad_pos st =? 1 then
          a2b_loop (A2B 2 (Z.land this_ch 15) 0
                      (Z.lor (Z.shiftl (leftchar st) 2) (Z.shiftr this_ch 4) mod 256
                       :: bin_data st)) ascii'
        else if quad_pos st =? 2 then
          a2b_loop (A2B 3 (Z.land this_ch 3) 0
                      (Z.lor (Z.shiftl (leftchar st) 4) (Z.shiftr this_ch 2) mod 256
                       :: bin_data st)) ascii'
        else
          a2b_loop (A2B 0 0 0
                      (Z.lor (Z.shiftl (leftchar st) 6) this_ch mod 256
                       :: bin_data st)) ascii'
  end.

Definition b64decode (s : bytes) : result bytes := a2b_loop (A2B 0 0 0 []) s.

(** The Base64 encoding of RFC 4648 ([base64.b64encode]); the script never
    calls it, the round-trip property is stated with it. *)
Definition table_b2a_base64 (v : Z) : Z :=
  if v <? 26 then v + 65
  else if v <? 52 then v + 71
  else if v <? 62 then v - 4
  else if v =? 62 then 43
  else 47.

Fixpoint b64encode (l : bytes) : bytes :=
  match l with
  | [] => []
  | [a] =>
      [table_b2a_base64 (Z.shiftr a 2);
       table_b2a_base64 (Z.shiftl (Z.land a 3) 4); 61; 61]
  | [a; b] =>
      [table_b2a_base64 (Z.shiftr a 2);
       table_b2a_base64 (Z.lor (Z.shiftl (Z.land a 3) 4) (Z.shiftr b 4));
       table_b2a_base64 (Z.shiftl (Z.land b 15) 2); 61]
  | a :: b :: c :: l' =>
      table_b2a_base64 (Z.shiftr a 2)
      :: table_b2a_base64 (Z.lor (Z.shiftl (Z.land a 3) 4) (Z.shiftr b 4))
      :: table_b2a_base64 (Z.lor (Z.shiftl (Z.land b 15) 2) (Z.shiftr c 6))
      :: table_b2a_base64 (Z.land c 63)
      :: b64encode l'
  end.

(** ** The XOR layer (line 114) *)

(** [KEY[i % len(KEY)]] *)
Definition key_byte (i : nat) : Z := nth (i mod length KEY)%nat KEY 0.

(** [bytes(b ^ KEY[i % len(KEY)] for i, b in enumerate(raw))] *)
Definition xor_key (raw : bytes) : bytes :=
  imap (fun i b => Z.lxor b (key_byte i)) raw.

(** ** [bytes.decode('utf-8', errors='replace')] *)

Definition REPLACEMENT_CHARACTER : Z := 65533.

Definition is_continuation (b : Z) : bool := (128 <=? b) && (b <? 192).

(** Second byte of a three-byte sequence: a continuation byte that is
    neither an overlong form (lead E0, second below A0) nor a surrogate
    (lead ED, second from A0 on). *)
Definition second_of_3_ok (ch ch2 : Z) : bool :=
  is_continuation ch2 && negb (if ch2 <? 160 then ch =? 224 else ch =? 237).

(** Second byte of a four-byte sequence: no overlong form (lead F0,
    second below 90) and nothing above U+10FFFF (lead F4, second from 90
    on). *)
Definition second_of_4_ok (ch ch2 : Z) : bool :=
  is_continuation ch2 && negb (if ch2 <? 144 then ch =? 240 else ch =? 244).

(** One step of the decoder on a non-empty input: the code point
    produced and the number of bytes consumed.  An invalid start byte
    costs one byte; an invalid continuation costs the valid bytes before
    it; a sequence cut short by the end of the input costs what is left.
    Each error yields one U+FFFD, as the [replace] handler does. *)
Definition utf8_step (l : bytes) : Z * nat :=
  match l with
  | [] => (REPLACEMENT_CHARACTER, 1%nat)
  | ch :: l1 =>
      if ch <? 128 then (ch, 1%nat)
      else if ch <? 194 then (REPLACEMENT_CHARACTER, 1%nat)
      else if ch <? 224 then
        match l1 with
        | ch2 :: _ =>
            if is_continuation ch2
            then (ch * 64 + ch2 - (192 * 64 + 128), 2%nat)
            else (REPLACEMENT_CHARACTER, 1%nat)
        | [] => (REPLACEMENT_CHARACTER, 1%nat)
        end
      else if ch <? 240 then
        match l1 with
        | ch2 :: l2 =>
            if second_of_3_ok ch ch2 then
              match l2 with
              | ch3 :: _ =>
                  if is_continuation ch3
                  then (ch * 4096 + ch2 * 64 + ch3
                        - (224 * 4096 + 128 * 64 + 128), 3%nat)
                  else (REPLACEMENT_CHARACTER, 2%nat)
              | [] => (REPLACEMENT_CHARACTER, 2%nat)
              end
            else (REPLACEMENT_CHARACTER, 1%nat)
        | [] => (REPLACEMENT_CHARACTER, 1%nat)
        end
      else if ch <? 245 then
        match l1 with
        | ch2 :: l2 =>
            if second_of_4_ok ch ch2 then
              match l2 with
              | ch3 :: l3 =>
                  if is_continuation ch3 then
                    match l3 with
                    | ch4 :: _ =>
                        if is_continuation ch4
                        then (ch * 262144 + ch2 * 4096 + ch3 * 64 + ch4
                              - (240 * 262144 + 128 * 4096 + 128 * 64 + 128),
                              4%nat)
                        else (REPLACEMENT_CHARACTER, 3%nat)
                    | [] => (REPLACEMENT_CHARACTER, 3%nat)
                    end
                  else (REPLACEMENT_CHARACTER, 2%nat)
              | [] => (REPLACEMENT_CHARACTER, 2%nat)
              end
            else (REPLACEMENT_CHARACTER, 1%nat)
        | [] => (REPLACEMENT_CHARACTER, 1%nat)
        end
      else (REPLACEMENT_CHARACTER, 1%nat)
  end.

(** The decoder: [skip] bytes of the input belong to the step already
    taken. *)
Fixpoint utf8_decode_aux (skip : nat) (l : bytes) : str :=
  match l with
  | [] => []
  | _ :: l' =>
      match skip with
      | S k => utf8_decode_aux k l'
      | O => let '(c, n) := utf8_step l in c :: utf8_decode_aux (Nat.pred n) l'
      end
  end.

Definition utf8_decode (l : bytes) : str := utf8_decode_aux O l.

(** ** [str.encode('utf-8')] *)

Definition utf8_encode_char (c : Z) : result bytes :=
  if c <? 128 then Ok [c]
  else if c <? 2048 then Ok [192 + c / 64; 128 + c mod 64]
  else if c <? 65536 then
    if (55296 <=? c) && (c <=? 57343) then Raise UnicodeEncodeError
    else Ok [224 + c / 4096; 128 + (c / 64) mod 64; 128 + c mod 64]
  else Ok [240 + c / 262144; 128 + (c / 4096) mod 64;
           128 + (c / 64) mod 64; 128 + c mod 64].

Fixpoint utf8_encode (s : str) : result bytes :=
  match s with
  | [] => Ok []
  | c :: s' =>
      b ← utf8_encode_char c;
      bs ← utf8_encode s';
      Ok (b ++ bs)
  end.

(** ** [hashlib.sha256] (FIPS 180-4) *)

Definition mask32 (x : Z) : Z := x mod 2 ^ 32.
Definition add32 (x y : Z) : Z := mask32 (x + y).
Definition rotr32 (n x : Z) : Z :=
  Z.lor (Z.shiftr x n) (mask32 (Z.shiftl x (32 - n))).
Definition not32 (x : Z) : Z := 2 ^ 32 - 1 - x.

Definition Ch (x y z : Z) : Z := Z.lxor (Z.land x y) (Z.land (not32 x) z).
Definition Maj (x y z : Z) : Z :=
  Z.lxor (Z.lxor (Z.land x y) (Z.land x z)) (Z.land y z).
Definition Sigma0 (x : Z) : Z :=
  Z.lxor (Z.lxor (rotr32 2 x) (rotr32 13 x)) (rotr32 22 x).
Definition Sigma1 (x : Z) : Z :=
  Z.lxor (Z.lxor (rotr32 6 x) (rotr32 11 x)) (rotr32 25 x).
Definition sigma0 (x : Z) : Z :=
  Z.lxor (Z.lxor (rotr32 7 x) (rotr32 18 x)) (Z.shiftr x 3).
Definition sigma1 (x : Z) : Z :=
  Z.lxor (Z.lxor (rotr32 17 x) (rotr32 19 x)) (Z.shiftr x 10).

(** The constants are defined as FIPS 180-4 defines them, from the
    first primes: [iroot k n] is the integer part of the [k]-th root of
    [n], found bit by bit from the top. *)
Fixpoint iroot_aux (k n : Z) (bits : nat) (r : Z) : Z :=
  match bits with
  | O => r
  | S b =>
      let c := r + 2 ^ Z.of_nat b in
      if c ^ k <=? n then iroot_aux k n b c else iroot_aux k n b r
  end.

Definition iroot (k n : Z) : Z := iroot_aux k n 40 0.

Definition is_prime (n : Z) : bool :=
  (2 <=? n)
  && forallb (fun d => negb (n mod d =? 0))
       (map Z.of_nat (seq 2 (Z.to_nat n - 2))).

(** The first 64 primes: 2, ..., 311. *)
Definition first_primes : list Z :=
  Eval vm_compute in filter (fun n => is_prime n = true) (map Z.of_nat (seq 2 310)).

(** The round constants: the first 32 bits of the fractional parts of the
    cube roots of the first 64 primes. *)
Definition sha256_K : list Z :=
  Eval vm_compute in map (fun p => iroot 3 (p * 2 ^ 96) mod 2 ^ 32) first_primes.

(** The initial hash value: the first 32 bits of the fractional parts of
    the square roots of the first 8 primes. *)
Definition sha256_H0 : list Z :=
  Eval vm_compute in map (fun p => iroot 2 (p * 2 ^ 64) mod 2 ^ 32) (take 8 first_primes).

(** Big-endian value of a byte string, and the [n]-byte big-endian
    representation of a number. *)
Definition be_uint (l : bytes) : Z := fold_left (fun acc b => acc * 256 + b) l 0.

Fixpoint be_bytes (n : nat) (x : Z) : bytes :=
  match n with
  | O => []
  | S k => (x / 256 ^ Z.of_nat k) mod 256 :: be_bytes k x
  end.

(** Padding: a [0x80] byte, zeros up to 56 modulo 64, then the bit length
    on 8 bytes. *)
Definition sha256_pad (msg : bytes) : bytes :=
  let n := len msg in
  msg ++ [128] ++ repeat 0 (Z.to_nat ((55 - n) mod 64)) ++ be_bytes 8 (8 * n).

(** The first [n] big-endian 32-bit words of a byte string. *)
Fixpoint words_of (n : nat) (l : bytes) : list Z :=
  match n with
  | O => []
  | S k => be_uint (take 4 l) :: words_of k (drop 4 l)
  end.

(** One round: [w] is the window [W_t .. W_{t+15}] of the message
    schedule, [v] the working variables [a .. h]. *)
Definition sha256_round (st : list Z * list Z) (k : Z) : list Z * list Z :=
  let '(w, v) := st in
  let W i := nth i w 0 in
  let V i := nth i v 0 in
  let t1 := add32 (add32 (add32 (add32 (V 7%nat) (Sigma1 (V 4%nat)))
                                 (Ch (V 4%nat) (V 5%nat) (V 6%nat))) k) (W 0%nat) in
  let t2 := add32 (Sigma0 (V 0%nat)) (Maj (V 0%nat) (V 1%nat) (V 2%nat)) in
  let w16 := add32 (add32 (add32 (sigma1 (W 14%nat)) (W 9%nat)) (sigma0 (W 1%nat)))
                   (W 0%nat) in
  (tl w ++ [w16],
   [add32 t1 t2; V 0%nat; V 1%nat; V 2%nat; add32 (V 3%nat) t1; V 4%nat; V 5%nat; V 6%nat]).

Definition sha256_block (h : list Z) (block : bytes) : list Z :=
  let '(_, v) := fold_left sha256_round sha256_K (words_of 16 block, h) in
  zip_with add32 h v.

Fixpoint sha256_blocks (nblocks : nat) (h : list Z) (l : bytes) : list Z :=
  match nblocks with
  | O => h
  | S k => sha256_blocks k (sha256_block h (take 64 l)) (drop 64 l)
  end.

(** [hashlib.sha256(msg).digest()] *)
Definition sha256 (msg : bytes) : bytes :=
  let p := sha256_pad msg in
  flat_map (be_bytes 4) (sha256_blocks (length p / 64) sha256_H0 p).

(** [.hexdigest()]: two lower-case hexadecimal digits per byte. *)
Definition hex_char (d : Z) : Z := if d <? 10 then 48 + d else 87 + d.
Definition hexlify (l : bytes) : str :=
  flat_map (fun b => [hex_char (b / 16); hex_char (b mod 16)]) l.

(** [int(s, 16)] for a string of hexadecimal digits; anything else makes
    [int] raise [ValueError]. *)
Definition hex_value (c : Z) : option Z :=
  if (48 <=? c) && (c <=? 57) then Some (c - 48)
  else if (97 <=? c) && (c <=? 102) then Some (c - 87)
  else if (65 <=? c) && (c <=? 70) then Some (c - 55)
  else None.

Fixpoint int16_from (acc : Z) (s : str) : result Z :=
  match s with
  | [] => Ok acc
  | c :: s' =>
      match hex_value c with
      | Some d => int16_from (acc * 16 + d) s'
      | None => Raise ValueError
      end
  end.

Definition int16 (s : str) : result Z :=
  match s with
  | [] => Raise ValueError
  | _ => int16_from 0 s
  end.

(** ** [should_include] (lines 94-98) *)

(** The result is a Boolean unless [encode] rejects a surrogate or the
    floor division [MAX_HASH // fraction] divides by zero.  [Z.div] is
    floor division, as Python's [//]. *)
Definition should_include (word nonce : str) (fraction : Z) : result bool :=
  if fraction =? 1 then Ok true
  else
    data ← utf8_encode (nonce ++ word);
    h ← int16 (hexlify (sha256 data));
    if fraction =? 0 then Raise ZeroDivisionError
    else Ok (h <? MAX_HASH / fraction).

(** ** The loaders (lines 101-139) *)

(** A Python [set] of words. *)
Abbreviation wordset := (gset (list Z)) (only parsing).

(** [for x in l: st = body(st, x)], stopping at the first exception. *)
Fixpoint for_each {S A : Type} (body : S -> A -> result S) (st : S) (l : list A) : result S :=
  match l with
  | [] => Ok st
  | x :: l' => st' ← body st x; for_each body st' l'
  end.

(** Lines 121-124 and 136-138: a length-valid word is counted, then
    sampled. *)
Definition accept_word (nonce : str) (fraction : Z) (st : Z * wordset) (word : str)
  : result (Z * wordset) :=
  let '(total, words) := st in
  inc ← should_include word nonce fraction;
  Ok (total + 1, if inc : bool then {[word]} ∪ words else words).

Definition length_ok (word : str) : bool := (2 <=? len word) && (len word <=? 9).

(** The body of the loop of [load_superdic] (lines 112-124). *)
Definition superdic_line (nonce : str) (fraction : Z) (st : Z * wordset) (line : bytes)
  : result (Z * wordset) :=
  match line with
  | [] => Ok st
  | _ =>
      raw ← b64decode line;
      let decoded := utf8_decode (xor_key raw) in
      eq_pos ← seq_index EQ_SIGN decoded;
      let word := slice_to eq_pos decoded in
      let rest := slice_from (eq_pos + 1) decoded in
      if seq_contains VARIANT_1 rest || seq_contains VARIANT_2 rest then Ok st
      else if length_ok word then accept_word nonce fraction st word
      else Ok st
  end.

(** [load_superdic]; [data] is what [open(path, 'rb').read()] returned. *)
Definition load_superdic (data : bytes) (nonce : str) (fraction : Z)
  : result (Z * wordset) :=
  let idx := seq_find WORDS_MARKER data in
  if idx =? -1 then Raise (SystemExit 1)
  else
    let words_data := slice_from (idx + len WORDS_MARKER) data in
    for_each (superdic_line nonce fraction) (0, ∅) (seq_split CRLF words_data).

(** [str.strip()]: the characters for which [str.isspace] holds are
    removed from both ends. *)
Definition is_space (c : Z) : bool :=
  ((9 <=? c) && (c <=? 13)) || ((28 <=? c) && (c <=? 32))
  || (c =? 133) || (c =? 160) || (c =? 5760)
  || ((8192 <=? c) && (c <=? 8202))
  || (c =? 8232) || (c =? 8233) || (c =? 8239) || (c =? 8287) || (c =? 12288).

Fixpoint lstrip (s : str) : str :=
  match s with
  | [] => []
  | c :: s' => if is_space c then lstrip s' else s
  end.

Definition strip (s : str) : str := rev (lstrip (rev (lstrip s))).

Section Candidate.

(** [str.upper()], the Unicode upper-case mapping, is taken as given:
    its tables are not part of the script. *)
Variable upper : str -> str.

(** The body of the loop of [load_candidate] (lines 133-138). *)
Definition candidate_line (nonce : str) (fraction : Z) (st : Z * wordset) (line : str)
  : result (Z * wordset) :=
  let word := upper (strip line) in
  match word with
  | [] => Ok st
  | _ => if negb (length_ok word) then Ok st else accept_word nonce fraction st word
  end.

(** [load_candidate]; [stream] is the sequence of lines read from the
    text stream. *)
Definition load_candidate (stream : list str) (nonce : str) (fraction : Z)
  : result (Z * wordset) :=
  for_each (candidate_line nonce fraction) (0, ∅) stream.

End Candidate.

(** The upper-case mapping restricted to ASCII letters, on which it
    agrees with [str.upper]; used to run the loaders on ASCII input. *)
Definition ascii_upper (s : str) : str :=
  map (fun c => if (97 <=? c) && (c <=? 122) then c - 32 else c) s.

(** ** Floating-point arithmetic of the report (lines 181-182) *)

(** [a / b] on Python integers, for [0 <= a, b < 2 ** 53]: both convert
    exactly and the quotient is the correctly rounded binary64 one. *)
Definition float_of_int (z : Z) : float := PrimFloat.of_uint63 (Uint63.of_Z z).
Definition int_truediv (a b : Z) : float := (float_of_int a / float_of_int b)%float.

(** The integer nearest to [m * 2 ^ e], ties to even. *)
Definition round_half_even (m e : Z) : Z :=
  if 0 <=? e then m * 2 ^ e
  else
    let d := 2 ^ (- e) in
    let q := m / d in
    let r := m mod d in
    if 2 * r <? d then q
    else if d <? 2 * r then q + 1
    else if Z.even q then q else q + 1.

(** [round(x, ndigits)] for a float [x] and [0 <= ndigits]: the exact
    binary value of [x] is rounded to [ndigits] decimals, ties to even,
    and the decimal result is converted back to the nearest float.  The
    conversion is written as a division of two exactly representable
    integers, which is accurate as long as [|x| * 10 ** ndigits] stays
    below [2 ** 53]. *)
Definition py_round (x : float) (ndigits : Z) : float :=
  match Prim2SF x with
  | S754_finite s m e =>
      let n := round_half_even (Z.pos m * 10 ^ ndigits) e in
      let r := (float_of_int n / float_of_int (10 ^ ndigits))%float in
      if s then (- r)%float else r
  | _ => x
  end.

(** ** [main] (lines 142-185) *)

Definition SUPPORTED_LANGUAGES : list string :=
  ["brazilian"; "catalan"; "deutsch"; "english"; "english_phonetic"; "espanol";
   "francais"; "greek"; "hebrew"; "hollands"; "hungarian"; "irish"; "italiano";
   "latin"; "persian"; "polish"; "portuguese"; "romana"; "russian";
   "scottishgaelic"; "slovak"; "suomi"; "svenska"; "tamil"; "turkish"]%string.

(** The parsed command line. *)
Record Args : Type := {
  language : string;
  fraction : Z;
  nonce : str
}.

(** The dictionary [result] printed as JSON (lines 170-183). *)
Record Report : Type := {
  r_language : string;
  r_nonce : str;
  r_fraction : Z;
  reference_total : Z;
  reference_sampled : Z;
  candidate_total : Z;
  candidate_sampled : Z;
  true_positives : Z;
  false_positives : Z;
  false_negatives : Z;
  recall_pct : float;
  precision_pct : float
}.

(** [len(s)] for a set. *)
Definition set_len (s : wordset) : Z := Z.of_nat (size s).

(** Lines 166-183. *)
Definition make_report (args : Args) (ref_total : Z) (ref : wordset)
    (candidate_tot : Z) (candidate : wordset) : Report :=
  let tp := set_len (candidate ∩ ref) in
  let fp := set_len (candidate ∖ ref) in
  let fn := set_len (ref ∖ candidate) in
  {| r_language := language args;
     r_nonce := nonce args;
     r_fraction := fraction args;
     reference_total := ref_total;
     reference_sampled := set_len ref;
     candidate_total := candidate_tot;
     candidate_sampled := set_len candidate;
     true_positives := tp;
     false_positives := fp;
     false_negatives := fn;
     recall_pct :=
       if bool_decide (ref = ∅) then 0%float
       else py_round (int_truediv tp (set_len ref) * 100)%float 4;
     precision_pct :=
       if bool_decide (candidate = ∅) then 0%float
       else py_round (int_truediv tp (set_len candidate) * 100)%float 4 |}.

(** What a run writes, in order: progress and errors on [stderr], the
    report on [stdout]. *)
Inductive event : Type :=
  | ErrUnsupportedLanguage
  | LoadingDictionary
  | ErrWordsSectionNotFound
  | WordsLoaded (total sampled : Z)
  | ReadingCandidates
  | PrintReport (r : Report).

(** A run: the events written and how the process ends ([None] is a
    normal return, [Some e] the exception that ended it). *)
Definition run : Type := list event * option exn.

Section Main.

Variable upper : str -> str.

(** [main].  [dic] is the outcome of [find_or_download_dic] followed by
    reading the file it names (the download and the file system are
    outside the script's logic); [stdin] is the sequence of lines of
    standard input. *)
Definition main (args : Args) (dic : result bytes) (stdin : list str) : run :=
  if negb (bool_decide (language args ∈ SUPPORTED_LANGUAGES))
  then ([ErrUnsupportedLanguage], Some (SystemExit 1))
  else
    match dic with
    | Raise e => ([], Some e)
    | Ok data =>
        match load_superdic data (nonce args) (fraction args) with
        | Raise (SystemExit c) =>
            ([LoadingDictionary; ErrWordsSectionNotFound], Some (SystemExit c))
        | Raise e => ([LoadingDictionary], Some e)
        | Ok (ref_total, ref) =>
            match load_candidate upper stdin (nonce args) (fraction args) with
            | Raise e =>
                ([LoadingDictionary; WordsLoaded ref_total (set_len ref);
                  ReadingCandidates], Some e)
            | Ok (candidate_tot, candidate) =>
                ([LoadingDictionary; WordsLoaded ref_total (set_len ref);
                  ReadingCandidates;
                  WordsLoaded candidate_tot (set_len candidate);
                  PrintReport (make_report args ref_total ref candidate_tot candidate)],
                 None)
            end
        end
    end.

End Main.

(** ** Vocabulary of the specification *)

(** [sub] occurs somewhere in [l]. *)
Definition is_substring (sub l : list Z) : Prop :=
  exists pre post, l = pre ++ sub ++ post.

(** The records of a dictionary file: what follows the first section
    marker, cut at every CRLF. *)
Definition records (data : bytes) : list bytes :=
  seq_split CRLF (slice_from (seq_find WORDS_MARKER data + len WORDS_MARKER) data).

(** The de-obfuscated text of a record, split at its first ['=']. *)
Definition decode_record (line : bytes) : result (list Z * list Z) :=
  raw ← b64decode line;
  let decoded := utf8_decode (xor_key raw) in
  eq_pos ← seq_index EQ_SIGN decoded;
  Ok (slice_to eq_pos decoded, slice_from (eq_pos + 1) decoded).

(** A record tagged as a variant form. *)
Definition is_variant (rest : str) : bool :=
  seq_contains VARIANT_1 rest || seq_contains VARIANT_2 rest.

(** The words of the records that the reference loader admits
    (non-variant, length 2 to 9), in file order and with repetitions. *)
Fixpoint accepted_words (lines : list bytes) : result (list (list Z)) :=
  match lines with
  | [] => Ok []
  | [] :: lines' => accepted_words lines'
  | line :: lines' =>
      wr ← decode_record line;
      ws ← accepted_words lines';
      Ok (if is_variant wr.2 then ws
          else if length_ok wr.1 then wr.1 :: ws else ws)
  end.

(** The words of the lines that the candidate loader admits, in stream
    order and with repetitions. *)
Definition candidate_words (upper : list Z -> list Z) (stream : list (list Z))
  : list (list Z) :=
  filter (fun w => length_ok w = true) (map (fun line => upper (strip line)) stream).

(** What a loader returns when every admitted word is sampled. *)
Definition counted (ws : list (list Z)) : Z * wordset :=
  (Z.of_nat (length ws), list_to_set ws).

(** The XOR layer in the words of the specification: byte [i] of the
    text is XOR-ed with byte [i mod 8] of the 8-byte key [7AVFU8PP].  It
    is written without the functions of the decoder, which the round
    trip compares it with. *)
Fixpoint xor_cycle (i : nat) (text : bytes) : bytes :=
  match text with
  | [] => []
  | b :: text' =>
      Z.lxor b (nth (i mod 8)%nat [55; 65; 86; 70; 85; 56; 80; 80] 0)
      :: xor_cycle (S i) text'
  end.

(** The encoding of a dictionary record: the UTF-8 bytes of its text,
    XOR-ed as above, in Base64. *)
Definition encode_record (text : bytes) : bytes := b64encode (xor_cycle 0 text).

(** A report computed from the configuration and the aggregate counts
    alone. *)
Definition report_of_counts (args : Args)
    (ref_total ref_sampled cand_total cand_sampled tp fp fn : Z) : Report :=
  {| r_language := language args;
     r_nonce := nonce args;
     r_fraction := fraction args;
     reference_total := ref_total;
     reference_sampled := ref_sampled;
     candidate_total := cand_total;
     candidate_sampled := cand_sampled;
     true_positives := tp;
     false_positives := fp;
     false_negatives := fn;
     recall_pct :=
       if ref_sampled =? 0 then 0%float
       else py_round (int_truediv tp ref_sampled * 100)%float 4;
     precision_pct :=
       if cand_sampled =? 0 then 0%float
       else py_round (int_truediv tp cand_sampled * 100)%float 4 |}.



(** A run that is refused before any loading: it ends with an exception
    and the dictionary loader was never started. *)
Definition rejected_before_loading (r : run) : Prop :=
  (exists e, r.2 = Some e) /\ LoadingDictionary ∉ r.1.

(** ** Auxiliary definitions of the proofs *)

(** The loop invariant of both loaders. *)
Definition size_le_total (st : Z * wordset) : Prop := set_len st.2 <= st.1.

(** The numbers below [n], for exhaustive checks on bytes. *)
Definition all_below (n : nat) : list Z := map Z.of_nat (seq 0 n).

(** The six-bit groups of a pair of adjacent bytes, and how the decoder
    reassembles them. *)
Definition sextet_facts (a b : Z) : bool :=
  (Z.shiftr a 2 <? 64) && (0 <=? Z.shiftr a 2)
  && (Z.lor (Z.shiftl (Z.land a 3) 4) (Z.shiftr b 4) <? 64)
  && (0 <=? Z.lor (Z.shiftl (Z.land a 3) 4) (Z.shiftr b 4))
  && (Z.shiftl (Z.land a 3) 4 <? 64) && (0 <=? Z.shiftl (Z.land a 3) 4)
  && (Z.lor (Z.shiftl (Z.land a 15) 2) (Z.shiftr b 6) <? 64)
  && (0 <=? Z.lor (Z.shiftl (Z.land a 15) 2) (Z.shiftr b 6))
  && (Z.shiftl (Z.land a 15) 2 <? 64) && (0 <=? Z.shiftl (Z.land a 15) 2)
  && (Z.land a 63 <? 64) && (0 <=? Z.land a 63)
  && (Z.lor (Z.shiftl (Z.shiftr a 2) 2)
            (Z.shiftr (Z.lor (Z.shiftl (Z.land a 3) 4) (Z.shiftr b 4)) 4) mod 256 =? a)
  && (Z.lor (Z.shiftl (Z.shiftr a 2) 2)
            (Z.shiftr (Z.shiftl (Z.land a 3) 4) 4) mod 256 =? a)
  && (Z.lor (Z.shiftl (Z.land (Z.lor (Z.shiftl (Z.land a 3) 4) (Z.shiftr b 4)) 15) 4)
            (Z.shiftr (Z.shiftl (Z.land b 15) 2) 2) mod 256 =? b)
  && (Z.land (Z.lor (Z.shiftl (Z.land a 3) 4) (Z.shiftr b 4)) 15 =? Z.shiftr b 4)
  && (Z.land (Z.lor (Z.shiftl (Z.land a 15) 2) (Z.shiftr b 6)) 3 =? Z.shiftr b 6)
  && (Z.lor (Z.shiftl (Z.shiftr a 4) 4)
            (Z.shiftr (Z.lor (Z.shiftl (Z.land a 15) 2) (Z.shiftr b 6)) 2) mod 256 =? a)
  && (Z.lor (Z.shiftl (Z.shiftr a 6) 6) (Z.land a 63) mod 256 =? a).

(** A record the reference loader cannot process. *)
Definition bad_record (line : bytes) : Prop :=
  line <> [] /\
  (b64decode line = Raise BinasciiError \/
   exists raw, b64decode line = Ok raw /\ 61 ∉ utf8_decode (xor_key raw)).





(** ** Example data *)

Definition CAT : list Z := [67; 65; 84].
Definition DOG : list Z := [68; 79; 71].
Definition CATS : list Z := [67; 65; 84; 83].
Definition BIRD : list Z := [66; 73; 82; 68].
Definition RUN : list Z := [82; 85; 78].

(** The records [CAT=], [DOG=], [CATS=] and [RUN=;1], encoded. *)
Definition record_CAT : list Z := encode_record (CAT ++ [61]).
Definition record_DOG : list Z := encode_record (DOG ++ [61]).
Definition record_CATS : list Z := encode_record (CATS ++ [61]).
Definition record_RUN_1 : list Z := encode_record (RUN ++ [61; 59; 49]).

(** A dictionary file with a header section and three base words. *)
Definition dic_three : list Z :=
  [91; 72; 101; 97; 100; 101; 114; 93; 13; 10; 120; 61; 49; 13; 10]
  ++ WORDS_MARKER ++ record_CAT ++ CRLF ++ record_DOG ++ CRLF
  ++ record_CATS ++ CRLF.

(** A dictionary file listing [CAT] twice. *)
Definition dic_twice : list Z :=
  WORDS_MARKER ++ record_CAT ++ CRLF ++ record_CAT ++ CRLF.

(** A dictionary file whose only record is the variant [RUN=;1]. *)
Definition dic_variant : list Z := WORDS_MARKER ++ record_RUN_1 ++ CRLF.

(** A dictionary file whose only record is the single character [A],
    which is not valid Base64. *)
Definition dic_truncated : list Z := WORDS_MARKER ++ [65].

(** The candidate streams [cat, dog, bird], [cat, cat] and
    [A, SUPERCALIFRAGIL], one word per line. *)
Definition stdin_three : list (list Z) :=
  [[99; 97; 116; 10]; [100; 111; 103; 10]; [98; 105; 114; 100; 10]].
Definition stdin_twice : list (list Z) :=
  [[99; 97; 116; 10]; [99; 97; 116; 10]].
Definition stdin_lengths : list (list Z) :=
  [[65; 10];
   [83; 85; 80; 69; 82; 67; 65; 76; 73; 70; 82; 65; 71; 73; 76; 10]].

Definition args_of (fraction : Z) : Args :=
  {| language := "deutsch"; fraction := fraction; nonce := [] |}.

(** ** [find_or_download_dic] (lines 60-91) *)

(** [DIC_BASE_URL] *)
Definition DIC_BASE_URL : string :=
  "https://github.com/Scrabble3D/Dictionaries/raw/main".

(** [s.endswith(suffix)] *)
Definition ends_with (suffix s : string) : bool :=
  let n := String.length s in
  let k := String.length suffix in
  (k <=? n)%nat && String.eqb (String.substring (n - k) k s) suffix.

(** [os.path.join(a, b)] of [posixpath]: an absolute [b] replaces [a];
    otherwise the two are joined with one separator. *)
Definition path_join (a b : string) : string :=
  if String.prefix "/" b then b
  else if String.eqb a "" || ends_with "/" a then a +:+ b
  else a +:+ "/" +:+ b.

(** A member of a zip archive, by what happens on extraction:
    [zf.open(name)] raises, or it succeeds and [read()] raises, or
    [read()] returns the data. *)
Inductive zip_member : Type :=
  | OpenFails
  | ReadFails
  | Content (data : list Z).

(** An archive: its members in file order, by name. *)
Abbreviation archive := (list (string * zip_member)) (only parsing).

(** [zf.namelist()] *)
Definition namelist (zf : archive) : list string := map fst zf.

(** [zf.open(name)] looks the name up in [NameToInfo], where a later
    member replaces an earlier one of the same name. *)
Definition zip_getinfo (name : string) (zf : archive) : option zip_member :=
  last (map snd (filter (fun m => m.1 = name) zf)).

(** What [find_or_download_dic] writes on [stderr]. *)
Inductive fetch_event : Type :=
  | DownloadingFrom (url : string)
  | ErrDownloadFailed
  | ErrNoDicInZip
  | Extracting (dic_name path : string)
  | ErrExtractionFailed.

(** The files on disk, by path. *)
Abbreviation filesystem := (gmap string (list Z)) (only parsing).

Section FindOrDownload.

(** The surroundings of the script: its directory, the answer of the
    network to a URL ([None] when [urlopen] or [read] raises), the reading
    of downloaded bytes as a zip archive ([None] when [ZipFile] raises) and
    the paths that [open(path, 'wb')] can create. *)
Variable SCRIPT_DIR : string.
Variable urlopen : string -> option (list Z).
Variable ZipFile : list Z -> option (list (string * zip_member)).
Variable writable : string -> bool.

(** [path], lines 62-64. *)
Definition dic_path (language : string) : string :=
  path_join SCRIPT_DIR (language +:+ ".dic").

(** [url], line 68. *)
Definition dic_url (language : string) : string :=
  DIC_BASE_URL +:+ "/" +:+ (language +:+ ".dic.zip").

(** Lines 85-86: the member is opened, then the destination (which
    creates or empties it), then the member is read and written. *)
Definition extract_to (path : string) (m : option zip_member) (fs : filesystem)
  : filesystem * result string :=
  match m with
  | None | Some OpenFails => (fs, Raise (SystemExit 1))
  | Some ReadFails =>
      if writable path then (<[path := []]> fs, Raise (SystemExit 1))
      else (fs, Raise (SystemExit 1))
  | Some (Content data) =>
      if writable path then (<[path := data]> fs, Ok path)
      else (fs, Raise (SystemExit 1))
  end.

(** [find_or_download_dic]: the messages written, the files afterwards
    and the path returned; every failure ends in [sys.exit(1)]. *)
Definition find_or_download_dic (language : string) (fs : filesystem)
  : list fetch_event * filesystem * result string :=
  let path := dic_path language in
  if bool_decide (is_Some (fs !! path)) then ([], fs, Ok path)
  else
    let url := dic_url language in
    match urlopen url with
    | None => ([DownloadingFrom url; ErrDownloadFailed], fs, Raise (SystemExit 1))
    | Some zip_bytes =>
        match ZipFile zip_bytes with
        | None =>
            ([DownloadingFrom url; ErrExtractionFailed], fs, Raise (SystemExit 1))
        | Some zf =>
            match filter (fun n => ends_with ".dic" n = true) (namelist zf) with
            | [] => ([DownloadingFrom url; ErrNoDicInZip], fs, Raise (SystemExit 1))
            | dic_name :: _ =>
                let '(fs', r) := extract_to path (zip_getinfo dic_name zf) fs in
                ([DownloadingFrom url; Extracting dic_name path]
                 ++ (if is_ok r then [] else [ErrExtractionFailed]), fs', r)
            end
        end
    end.

(** [open(path, 'rb').read()] for a file that exists. *)
Definition read_file (path : string) (fs : filesystem) : option (list Z) := fs !! path.

End FindOrDownload.

(** ** Auxiliary definitions of the further properties *)

(** An iteration of either loader skips its input, or counts and samples
    one word, or fails, and which of these does not depend on the
    state. *)
Definition word_step (nonce : list Z) (fraction : Z)
    (body : Z * gset (list Z) -> list Z -> result (Z * gset (list Z))) : Prop :=
  forall x,
    (forall st, body st x = Ok st) \/
    (exists w, forall st, body st x = accept_word nonce fraction st w) \/
    (exists e, forall st, body st x = Raise e).

(** The same line with white space added at either end. *)
Definition padded (line line' : list Z) : Prop :=
  exists a b,
    Forall (fun c => is_space c = true) a /\
    Forall (fun c => is_space c = true) b /\
    line' = a ++ line ++ b.

(** Two archives: one with a member of another kind and two members of
    the same name, one whose only member cannot be read. *)
Definition example_zip : list (string * zip_member) :=
  [("README.txt"%string, Content [104; 105]);
   ("deutsch.dic"%string, OpenFails);
   ("deutsch.dic"%string, Content dic_three)].

Definition broken_zip : list (string * zip_member) :=
  [("deutsch.dic"%string, ReadFails)].

(** * Properties *)

(** ** Sequences *)

Lemma starts_with_spec sub l :
  starts_with sub l = true <-> exists post, l = sub ++ post.
Proof.
  revert l. induction sub as [|a sub IH]; intros l; simpl.
  - split; eauto.
  - destruct l as [|b l].
    + split; [discriminate | intros [post H]; discriminate].
    + rewrite andb_true_iff, Z.eqb_eq, IH. split.
      * intros [-> [post ->]]. eauto.
      * intros [post H]. injection H as -> ->. eauto.
Qed.

Lemma find_from_range sub l i :
  find_from sub l i = -1 \/ i <= find_from sub l i <= i + len l.
Proof.
  unfold len. revert i. induction l as [|b l IH]; intros i; simpl.
  - destruct (starts_with sub []); lia.
  - destruct (starts_with sub (b :: l)); [lia|].
    destruct (IH (i + 1)) as [H|H]; [by left | right; lia].
Qed.

Lemma find_from_absent sub l i :
  0 <= i -> (find_from sub l i = -1 <-> ~ is_substring sub l).
Proof.
  revert i. induction l as [|b l IH]; intros i Hi; simpl.
  - destruct (starts_with sub []) eqn:E.
    + apply starts_with_spec in E as [post E]. split; [lia|].
      intros H. exfalso. apply H. exists [], post. done.
    + split; [|done]. intros _ (pre & post & H).
      destruct pre; [|discriminate]. simpl in H.
      assert (starts_with sub [] = true) by (apply starts_with_spec; eauto).
      congruence.
  - destruct (starts_with sub (b :: l)) eqn:E.
    + apply starts_with_spec in E as [post E]. split; [lia|].
      intros H. exfalso. apply H. exists [], post. done.
    + rewrite IH by lia. split.
      * intros H (pre & post & H'). destruct pre as [|p pre]; simpl in H'.
        -- assert (starts_with sub (b :: l) = true) by (apply starts_with_spec; eauto).
           congruence.
        -- injection H' as -> ->. apply H. by exists pre, post.
      * intros H (pre & post & ->). apply H. by exists (b :: pre), post.
Qed.

Lemma seq_find_absent sub l : seq_find sub l = -1 <-> ~ is_substring sub l.
Proof. by apply find_from_absent. Qed.

Lemma find_from_present sub l i :
  find_from sub l i <> -1 ->
  exists pre post, l = pre ++ sub ++ post /\ find_from sub l i = i + len pre.
Proof.
  unfold len. revert i. induction l as [|b l IH]; intros i; simpl.
  - destruct (starts_with sub []) eqn:E; [|done].
    apply starts_with_spec in E as [post E]. intros _.
    exists [], post. split; [done | simpl; lia].
  - destruct (starts_with sub (b :: l)) eqn:E.
    + apply starts_with_spec in E as [post E]. intros _.
      exists [], post. split; [done | simpl; lia].
    + intros H. destruct (IH _ H) as (pre & post & -> & Hj).
      exists (b :: pre), post. split; [done|]. rewrite Hj. simpl. lia.
Qed.

Lemma seq_contains_spec sub l : seq_contains sub l = true <-> is_substring sub l.
Proof.
  unfold seq_contains. rewrite negb_true_iff, Z.eqb_neq. split.
  - intros H. destruct (find_from_present _ _ _ H) as (pre & post & -> & _).
    by exists pre, post.
  - intros H E. by apply seq_find_absent in E.
Qed.

Lemma seq_contains_false sub l : seq_contains sub l = false <-> ~ is_substring sub l.
Proof. rewrite <- seq_contains_spec. by destruct (seq_contains sub l). Qed.

Lemma starts_with_char c l :
  starts_with [c] l = match l with b :: _ => c =? b | [] => false end.
Proof. destruct l; simpl; [done | by rewrite andb_true_r]. Qed.

Lemma find_char_first c w rest i :
  c ∉ w -> find_from [c] (w ++ c :: rest) i = i + len w.
Proof.
  unfold len. revert i. induction w as [|b w IH]; intros i Hc.
  - simpl. rewrite Z.eqb_refl. simpl. lia.
  - apply not_elem_of_cons in Hc as [Hb Hw].
    change (find_from [c] ((b :: w) ++ c :: rest) i)
      with (if starts_with [c] (b :: w ++ c :: rest) then i
            else find_from [c] (w ++ c :: rest) (i + 1)).
    rewrite starts_with_char.
    destruct (c =? b) eqn:E; [apply Z.eqb_eq in E; congruence|].
    rewrite IH by done. simpl length. lia.
Qed.

Lemma seq_index_first c w rest :
  c ∉ w -> seq_index [c] (w ++ c :: rest) = Ok (len w).
Proof.
  intros Hc. unfold seq_index, seq_find. rewrite find_char_first by done.
  unfold len. destruct (0 + Z.of_nat (length w) =? -1) eqn:E.
  - apply Z.eqb_eq in E. lia.
  - done.
Qed.

Lemma is_substring_char c l : is_substring [c] l <-> c ∈ l.
Proof.
  split.
  - intros (pre & post & ->). set_solver.
  - intros H. apply list_elem_of_split in H as (pre & post & ->). by exists pre, post.
Qed.

Lemma seq_index_absent c l : seq_index [c] l = Raise ValueError <-> c ∉ l.
Proof.
  unfold seq_index. rewrite <- is_substring_char, <- seq_find_absent.
  destruct (seq_find [c] l =? -1) eqn:E.
  - apply Z.eqb_eq in E. tauto.
  - apply Z.eqb_neq in E. split; [discriminate | tauto].
Qed.

Lemma seq_index_raises c l e : seq_index [c] l = Raise e -> e = ValueError.
Proof. unfold seq_index. destruct (_ =? _); congruence. Qed.

Lemma seq_index_split c l p :
  seq_index [c] l = Ok p ->
  0 <= p /\ l = slice_to p l ++ c :: slice_from (p + 1) l /\ c ∉ slice_to p l.
Proof.
  unfold seq_index, seq_find, slice_to, slice_from.
  destruct (find_from [c] l 0 =? -1) eqn:E; [discriminate|].
  apply Z.eqb_neq in E. intros [= <-].
  destruct (find_from_present _ _ _ E) as (pre & post & Hl & Hp).
  destruct (decide (c ∈ pre)) as [Hin|Hin].
  - exfalso. apply list_elem_of_split_l in Hin as (w & post' & Hw & Hn).
    rewrite Hl, Hw, <- app_assoc in Hp. simpl in Hp.
    rewrite find_char_first in Hp by done.
    subst pre. unfold len in Hp. rewrite length_app in Hp. simpl in Hp. lia.
  - rewrite Hp. unfold len. subst l. simpl.
    replace (Z.to_nat (0 + Z.of_nat (length pre))) with (length pre) by lia.
    replace (Z.to_nat (0 + Z.of_nat (length pre) + 1)) with (length (pre ++ [c]))
      by (rewrite length_app; simpl; lia).
    rewrite take_app_length.
    rewrite (cons_middle c pre post), app_assoc, drop_app_length.
    split; [lia|]. split; [|done]. by rewrite <- app_assoc.
Qed.

(** ** Loops *)

Lemma for_each_cons {S A} (body : S -> A -> result S) st x l :
  for_each body st (x :: l) = st' ← body st x; for_each body st' l.
Proof. done. Qed.

Lemma for_each_app {S A} (body : S -> A -> result S) st l1 l2 :
  for_each body st (l1 ++ l2) = st' ← for_each body st l1; for_each body st' l2.
Proof.
  revert st. induction l1 as [|x l1 IH]; intros st; simpl; [done|].
  destruct (body st x) as [st'|e]; simpl; [apply IH | done].
Qed.

(** A property of the loop state that every iteration preserves holds of
    the state the loop returns. *)
Lemma for_each_invariant {S A} (P : S -> Prop) (body : S -> A -> result S) l :
  (forall st x st', P st -> body st x = Ok st' -> P st') ->
  forall st st', P st -> for_each body st l = Ok st' -> P st'.
Proof.
  intros Hbody. induction l as [|x l IH]; intros st st' HP; simpl.
  - by intros [= <-].
  - destruct (body st x) as [st1|e] eqn:E; simpl; [|discriminate].
    apply IH. eauto.
Qed.

(** An iteration that leaves the state alone can be dropped. *)
Lemma for_each_skip {S A} (body : S -> A -> result S) l1 x l2 st :
  (forall st, body st x = Ok st) ->
  for_each body st (l1 ++ x :: l2) = for_each body st (l1 ++ l2).
Proof.
  intros Hx. rewrite !for_each_app. destruct (for_each body st l1); simpl; [|done].
  by rewrite Hx.
Qed.

(** ** The bodies of the two loops *)

Lemma superdic_line_empty nonce fraction st :
  superdic_line nonce fraction st [] = Ok st.
Proof. done. Qed.

Lemma superdic_line_decode nonce fraction st line :
  line <> [] ->
  superdic_line nonce fraction st line =
    wr ← decode_record line;
    if is_variant wr.2 then Ok st
    else if length_ok wr.1 then accept_word nonce fraction st wr.1 else Ok st.
Proof.
  intros Hl. destruct line as [|b line]; [done|].
  unfold superdic_line, decode_record.
  destruct (b64decode (b :: line)) as [raw|e]; simpl; [|done].
  by destruct (seq_index EQ_SIGN (utf8_decode (xor_key raw))).
Qed.

Lemma candidate_line_word upper nonce fraction st line :
  candidate_line upper nonce fraction st line =
    if length_ok (upper (strip line))
    then accept_word nonce fraction st (upper (strip line)) else Ok st.
Proof.
  unfold candidate_line. destruct (upper (strip line)) as [|c w] eqn:E; [done|].
  by destruct (length_ok (c :: w)).
Qed.

Lemma length_ok_spec w : length_ok w = true <-> 2 <= len w <= 9.
Proof. unfold length_ok. rewrite andb_true_iff, !Z.leb_le. tauto. Qed.

Lemma length_ok_false w : length_ok w = false <-> len w < 2 \/ 9 < len w.
Proof.
  unfold length_ok. rewrite andb_false_iff, !Z.leb_gt. tauto.
Qed.

Lemma accept_word_ok nonce fraction total words word st' :
  accept_word nonce fraction (total, words) word = Ok st' ->
  exists inc, should_include word nonce fraction = Ok inc /\
    st' = (total + 1, if inc then {[word]} ∪ words else words).
Proof.
  unfold accept_word. destruct (should_include word nonce fraction) as [inc|e]; simpl.
  - intros [= <-]. eauto.
  - discriminate.
Qed.

(** ** Sampled count and total *)

Lemma size_add_le (w : list Z) (s : wordset) : (size ({[w]} ∪ s) <= S (size s))%nat.
Proof.
  rewrite size_union_alt, size_singleton.
  assert (size (s ∖ {[w]}) <= size s)%nat as Hle.
  { apply subseteq_size. intros x Hx. apply elem_of_difference in Hx. tauto. }
  lia.
Qed.

Lemma accept_word_size nonce fraction st word st' :
  size_le_total st -> accept_word nonce fraction st word = Ok st' -> size_le_total st'.
Proof.
  destruct st as [total words]. unfold size_le_total, set_len. simpl.
  intros H E. apply accept_word_ok in E as (inc & _ & ->). simpl.
  destruct inc; [|lia]. pose proof (size_add_le word words). lia.
Qed.

Lemma superdic_line_size nonce fraction st line st' :
  size_le_total st -> superdic_line nonce fraction st line = Ok st' -> size_le_total st'.
Proof.
  intros H. destruct line as [|b line]; [by intros [= <-]|].
  rewrite superdic_line_decode by done.
  destruct (decode_record (b :: line)) as [[word rest]|e]; simpl; [|done].
  destruct (is_variant rest); [by intros [= <-]|].
  destruct (length_ok word); [by apply accept_word_size | by intros [= <-]].
Qed.

Lemma candidate_line_size upper nonce fraction st line st' :
  size_le_total st -> candidate_line upper nonce fraction st line = Ok st' ->
  size_le_total st'.
Proof.
  intros H. rewrite candidate_line_word.
  destruct (length_ok _); [by apply accept_word_size | by intros [= <-]].
Qed.

Lemma size_le_total_init : size_le_total (0, ∅).
Proof. unfold size_le_total, set_len. cbn [fst snd]. rewrite size_empty. lia. Qed.

(** ** The loaders as loops over their admitted words *)

Lemma load_candidate_accept upper stream nonce fraction st :
  for_each (candidate_line upper nonce fraction) st stream =
  for_each (accept_word nonce fraction) st (candidate_words upper stream).
Proof.
  unfold candidate_words. revert st.
  induction stream as [|line stream IH]; intros st; [done|].
  rewrite for_each_cons, candidate_line_word. simpl map.
  rewrite filter_cons. case_decide as E.
  - rewrite E. simpl.
    destruct (accept_word nonce fraction st (upper (strip line))); simpl; [apply IH | done].
  - apply not_true_is_false in E. rewrite E. apply IH.
Qed.

Lemma load_superdic_accept lines ws nonce fraction st :
  accepted_words lines = Ok ws ->
  for_each (superdic_line nonce fraction) st lines =
  for_each (accept_word nonce fraction) st ws.
Proof.
  revert ws st. induction lines as [|line lines IH]; intros ws st.
  - by intros [= <-].
  - destruct line as [|b line]; [simpl; apply IH|].
    change (accepted_words ((b :: line) :: lines))
      with (wr ← decode_record (b :: line);
            ws ← accepted_words lines;
            Ok (if is_variant wr.2 then ws
                else if length_ok wr.1 then wr.1 :: ws else ws)).
    rewrite for_each_cons, superdic_line_decode by done.
    destruct (decode_record (b :: line)) as [[word rest]|e]; simpl; [|done].
    destruct (accepted_words lines) as [ws'|e]; simpl; [|done].
    intros [= <-]. destruct (is_variant rest); simpl; [by apply IH|].
    destruct (length_ok word); simpl; [|by apply IH].
    destruct (accept_word nonce fraction st word); simpl; [by apply IH | done].
Qed.

Lemma accepted_words_length_ok lines ws :
  accepted_words lines = Ok ws -> Forall (fun w => length_ok w = true) ws.
Proof.
  revert ws. induction lines as [|line lines IH]; intros ws.
  - intros [= <-]. constructor.
  - destruct line as [|b line]; [simpl; apply IH|].
    change (accepted_words ((b :: line) :: lines))
      with (wr ← decode_record (b :: line);
            ws ← accepted_words lines;
            Ok (if is_variant wr.2 then ws
                else if length_ok wr.1 then wr.1 :: ws else ws)).
    destruct (decode_record (b :: line)) as [[word rest]|e]; simpl; [|done].
    destruct (accepted_words lines) as [ws'|e]; simpl; [|done].
    intros [= <-]. specialize (IH _ eq_refl).
    destruct (is_variant rest); [done|].
    destruct (length_ok word) eqn:E; [by constructor | done].
Qed.

Lemma candidate_words_length_ok upper stream :
  Forall (fun w => length_ok w = true) (candidate_words upper stream).
Proof.
  apply Forall_forall. intros w Hw. unfold candidate_words in Hw.
  by apply list_elem_of_filter in Hw as [? _].
Qed.

(** What the accept_word loop returns: the total grows by the number of words
    and the set receives exactly the words the sampler accepts. *)
Lemma accept_all_ok nonce fraction ws total words total' words' :
  for_each (accept_word nonce fraction) (total, words) ws = Ok (total', words') ->
  total' = total + Z.of_nat (length ws) /\
  forall w, w ∈ words' <->
    w ∈ words \/ (w ∈ ws /\ should_include w nonce fraction = Ok true).
Proof.
  revert total words. induction ws as [|x ws IH]; intros total words.
  - intros [= <- <-]. split; [simpl; lia|]. set_solver.
  - rewrite for_each_cons.
    destruct (accept_word nonce fraction (total, words) x) as [[t1 s1]|e] eqn:E; simpl; [|done].
    apply accept_word_ok in E as (inc & Hinc & [= -> ->]).
    intros H. apply IH in H as [-> Hw]. split; [simpl length; lia|].
    intros w. rewrite Hw. destruct inc.
    + rewrite elem_of_union, elem_of_singleton, elem_of_cons. split.
      * intros [[->|?]|[? ?]]; eauto.
      * intros [?|[[->|?] ?]]; eauto.
    + rewrite elem_of_cons. split.
      * intros [?|[? ?]]; eauto.
      * intros [?|[[->|?] ?]]; eauto. congruence.
Qed.

(** With a sampler that accepts everything, every word is added. *)
Lemma accept_all_fraction_1 nonce ws total words :
  for_each (accept_word nonce 1) (total, words) ws =
  Ok (total + Z.of_nat (length ws), list_to_set ws ∪ words).
Proof.
  revert total words. induction ws as [|x ws IH]; intros total words.
  - simpl. f_equal. f_equal; [lia | set_solver].
  - rewrite for_each_cons. unfold accept_word, should_include. simpl.
    rewrite IH. f_equal. f_equal; [simpl length; lia | set_solver].
Qed.

(** ** Records *)

Lemma slice_word word c rest :
  slice_to (len word) (word ++ c :: rest) = word /\
  slice_from (len word + 1) (word ++ c :: rest) = rest.
Proof.
  unfold slice_to, slice_from, len.
  replace (Z.to_nat (Z.of_nat (length word))) with (length word) by lia.
  replace (Z.to_nat (Z.of_nat (length word) + 1)) with (length (word ++ [c]))
    by (rewrite length_app; simpl; lia).
  rewrite take_app_length. split; [done|].
  by rewrite (cons_middle c word rest), app_assoc, drop_app_length.
Qed.

(** A record decodes to [(word, rest)] exactly when its de-obfuscated
    text is [word = rest] with no ['='] inside [word]. *)
Lemma decode_record_ok line word rest :
  decode_record line = Ok (word, rest) <->
  exists raw, b64decode line = Ok raw /\
    utf8_decode (xor_key raw) = word ++ 61 :: rest /\ 61 ∉ word.
Proof.
  unfold decode_record. split.
  - destruct (b64decode line) as [raw|e]; simpl; [|done].
    destruct (seq_index EQ_SIGN (utf8_decode (xor_key raw))) as [p|e] eqn:E; simpl; [|done].
    intros [= <- <-]. exists raw. split; [done|].
    apply seq_index_split in E as (_ & E & Hn). by rewrite <- E.
  - intros (raw & Hb & Ht & Hn). rewrite Hb. simpl. rewrite Ht. unfold EQ_SIGN.
    rewrite seq_index_first by done. simpl.
    by destruct (slice_word word 61 rest) as [-> ->].
Qed.

Lemma is_variant_spec rest :
  is_variant rest = true <->
  is_substring VARIANT_1 rest \/ is_substring VARIANT_2 rest.
Proof. unfold is_variant. by rewrite orb_true_iff, !seq_contains_spec. Qed.

Lemma is_variant_false rest :
  is_variant rest = false <->
  ~ is_substring VARIANT_1 rest /\ ~ is_substring VARIANT_2 rest.
Proof. unfold is_variant. by rewrite orb_false_iff, !seq_contains_false. Qed.

(** ** The sampler *)

Lemma utf8_encode_app a b :
  utf8_encode (a ++ b) = x ← utf8_encode a; y ← utf8_encode b; Ok (x ++ y).
Proof.
  induction a as [|c a IH]; simpl.
  - by destruct (utf8_encode b).
  - destruct (utf8_encode_char c) as [bc|e]; simpl; [|done].
    rewrite IH. destruct (utf8_encode a) as [ba|e]; simpl; [|done].
    destruct (utf8_encode b) as [bb|e]; simpl; [|done].
    by rewrite app_assoc.
Qed.

Lemma be_bytes_is_bytes n x : is_bytes (be_bytes n x).
Proof.
  induction n as [|n IH]; simpl; constructor; [|done].
  unfold is_byte. apply Z.mod_pos_bound. lia.
Qed.

Lemma be_bytes_length n x : length (be_bytes n x) = n.
Proof. induction n; simpl; congruence. Qed.

Lemma sha256_round_length st k : length (sha256_round st k).2 = 8%nat.
Proof. by destruct st. Qed.

Lemma sha256_rounds_length ks st :
  ks <> [] -> length (fold_left sha256_round ks st).2 = 8%nat.
Proof.
  intros Hks. destruct (exists_last Hks) as (ks' & k & ->).
  rewrite fold_left_app. simpl. apply sha256_round_length.
Qed.

Lemma sha256_block_length h block :
  length h = 8%nat -> length (sha256_block h block) = 8%nat.
Proof.
  intros Hh. unfold sha256_block.
  pose proof (sha256_rounds_length sha256_K (words_of 16 block, h)) as Hv.
  destruct (fold_left sha256_round sha256_K (words_of 16 block, h)) as [w v].
  simpl in Hv. rewrite length_zip_with, Hh, Hv by done. done.
Qed.

Lemma sha256_blocks_length n h l :
  length h = 8%nat -> length (sha256_blocks n h l) = 8%nat.
Proof.
  revert h l. induction n as [|n IH]; intros h l Hh; simpl; [done|].
  apply IH. by apply sha256_block_length.
Qed.

Lemma flat_map_be_bytes_length ws :
  length (flat_map (be_bytes 4) ws) = (4 * length ws)%nat.
Proof.
  induction ws as [|w ws IH]; [done|].
  change (flat_map (be_bytes 4) (w :: ws))
    with (be_bytes 4 w ++ flat_map (be_bytes 4) ws).
  rewrite length_app, be_bytes_length, IH. simpl length. lia.
Qed.

Lemma flat_map_be_bytes_is_bytes ws : is_bytes (flat_map (be_bytes 4) ws).
Proof.
  induction ws as [|w ws IH]; [constructor|].
  change (flat_map (be_bytes 4) (w :: ws))
    with (be_bytes 4 w ++ flat_map (be_bytes 4) ws).
  apply Forall_app. split; [apply be_bytes_is_bytes | done].
Qed.

(** A digest is 32 bytes. *)
Lemma sha256_digest msg : length (sha256 msg) = 32%nat /\ is_bytes (sha256 msg).
Proof.
  unfold sha256. split; [|apply flat_map_be_bytes_is_bytes].
  rewrite flat_map_be_bytes_length, sha256_blocks_length; done.
Qed.

Lemma hex_value_char d : 0 <= d < 16 -> hex_value (hex_char d) = Some d.
Proof.
  intros Hd. unfold hex_char, hex_value.
  destruct (d <? 10) eqn:E.
  - apply Z.ltb_lt in E.
    replace ((48 <=? 48 + d) && (48 + d <=? 57)) with true
      by (symmetry; apply andb_true_iff; split; apply Z.leb_le; lia).
    f_equal. lia.
  - apply Z.ltb_ge in E.
    replace ((48 <=? 87 + d) && (87 + d <=? 57)) with false
      by (symmetry; apply andb_false_iff; right; apply Z.leb_gt; lia).
    replace ((97 <=? 87 + d) && (87 + d <=? 102)) with true
      by (symmetry; apply andb_true_iff; split; apply Z.leb_le; lia).
    f_equal. lia.
Qed.

Lemma int16_from_hexlify l acc :
  is_bytes l ->
  int16_from acc (hexlify l) = Ok (fold_left (fun a b => a * 256 + b) l acc).
Proof.
  intros Hl. revert acc. induction Hl as [|b l Hb Hl IH]; intros acc; [done|].
  unfold is_byte in Hb.
  change (hexlify (b :: l))
    with (hex_char (b / 16) :: hex_char (b mod 16) :: hexlify l).
  simpl int16_from.
  rewrite hex_value_char by (split; [apply Z.div_pos | apply Z.div_lt_upper_bound]; lia).
  rewrite hex_value_char by (apply Z.mod_pos_bound; lia).
  rewrite IH. simpl. do 2 f_equal.
  pose proof (Z.div_mod b 16). lia.
Qed.

(** Reading the hexadecimal digest as a base-16 numeral gives the
    big-endian value of the digest bytes. *)
Lemma int16_hexlify l :
  is_bytes l -> l <> [] -> int16 (hexlify l) = Ok (be_uint l).
Proof.
  intros Hl Hne. unfold int16, be_uint. rewrite <- int16_from_hexlify by done.
  destruct l as [|b l]; [done|]. done.
Qed.

Lemma be_uint_snoc l b : be_uint (l ++ [b]) = be_uint l * 256 + b.
Proof. unfold be_uint. by rewrite fold_left_app. Qed.

Lemma be_uint_range l :
  is_bytes l -> 0 <= be_uint l < 256 ^ Z.of_nat (length l).
Proof.
  induction l as [|b l IH] using rev_ind; intros Hl.
  - unfold be_uint. simpl. lia.
  - apply Forall_app in Hl as [Hl Hb]. apply Forall_inv in Hb.
    unfold is_byte in Hb. specialize (IH Hl).
    rewrite be_uint_snoc, length_app. simpl length.
    replace (Z.of_nat (length l + 1)) with (Z.of_nat (length l) + 1) by lia.
    rewrite Z.pow_add_r, Z.pow_1_r by lia. lia.
Qed.

Lemma sha256_int_range msg : 0 <= be_uint (sha256 msg) < 2 ^ 256.
Proof.
  destruct (sha256_digest msg) as [Hlen Hb].
  pose proof (be_uint_range _ Hb) as H. rewrite Hlen in H.
  change (256 ^ Z.of_nat 32) with (2 ^ 256) in H. done.
Qed.

(** [should_include] in closed form. *)
Lemma should_include_eq word nonce fraction :
  should_include word nonce fraction =
    if fraction =? 1 then Ok true
    else data ← utf8_encode (nonce ++ word);
         if fraction =? 0 then Raise ZeroDivisionError
         else Ok (be_uint (sha256 data) <? MAX_HASH / fraction).
Proof.
  unfold should_include. destruct (fraction =? 1); [done|].
  destruct (utf8_encode (nonce ++ word)) as [data|e]; simpl; [|done].
  destruct (sha256_digest data) as [Hlen Hb].
  rewrite int16_hexlify; [done | done |].
  intros E. by rewrite E in Hlen.
Qed.

(** ** The XOR layer *)

Lemma xor_key_involutive l : xor_key (xor_key l) = l.
Proof.
  apply list_eq. intros i. unfold xor_key. rewrite !list_lookup_imap.
  destruct (l !! i) as [b|]; simpl; [|done].
  by rewrite Z.lxor_assoc, Z.lxor_nilpotent, Z.lxor_0_r.
Qed.

Lemma lxor_is_byte a b : is_byte a -> is_byte b -> is_byte (Z.lxor a b).
Proof.
  unfold is_byte. intros Ha Hb.
  assert (0 <= Z.lxor a b) as Hnn by (apply Z.lxor_nonneg; lia).
  split; [done|].
  destruct (decide (Z.lxor a b = 0)) as [->|Hz]; [lia|].
  change 256 with (2 ^ 8). apply Z.log2_lt_pow2; [lia|].
  pose proof (Z.log2_lxor a b ltac:(lia) ltac:(lia)) as Hlog.
  assert (Z.log2 a < 8) as Hla.
  { destruct (decide (a = 0)) as [->|?]; [done|]. apply Z.log2_lt_pow2; lia. }
  assert (Z.log2 b < 8) as Hlb.
  { destruct (decide (b = 0)) as [->|?]; [done|]. apply Z.log2_lt_pow2; lia. }
  lia.
Qed.

Lemma key_byte_is_byte i : is_byte (key_byte i).
Proof.
  unfold key_byte.
  assert (i mod length KEY < 8)%nat as Hi by (apply Nat.mod_upper_bound; done).
  revert Hi. generalize (i mod length KEY)%nat. intros n Hn. unfold is_byte.
  do 8 (destruct n as [|n]; [simpl; lia|]). lia.
Qed.

Lemma xor_key_is_bytes l : is_bytes l -> is_bytes (xor_key l).
Proof.
  intros Hl. apply Forall_lookup. intros i x. unfold xor_key.
  rewrite list_lookup_imap. destruct (l !! i) as [b|] eqn:E; simpl; [|done].
  intros [= <-]. apply lxor_is_byte; [|apply key_byte_is_byte].
  by apply (proj1 (Forall_lookup _ _) Hl i).
Qed.

(** ** Base64 *)

Lemma in_all_below n x : 0 <= x < Z.of_nat n -> In x (all_below n).
Proof.
  intros Hx. unfold all_below. apply in_map_iff. exists (Z.to_nat x).
  split; [lia|]. apply in_seq. lia.
Qed.

Lemma check_below n (P : Z -> bool) x :
  forallb P (all_below n) = true -> 0 <= x < Z.of_nat n -> P x = true.
Proof.
  intros H Hx. by apply (proj1 (forallb_forall _ _) H), in_all_below.
Qed.

Lemma check_below2 n m (P : Z -> Z -> bool) x y :
  forallb (fun a => forallb (P a) (all_below m)) (all_below n) = true ->
  0 <= x < Z.of_nat n -> 0 <= y < Z.of_nat m -> P x y = true.
Proof.
  intros H Hx Hy.
  apply (check_below m (P x) y); [|done].
  by apply (check_below n (fun a => forallb (P a) (all_below m)) x).
Qed.

(** The alphabet: decoding a character of the encoding table gives the
    six bits back, and no such character is the pad or a line end. *)
Lemma table_roundtrip v :
  0 <= v < 64 ->
  table_a2b_base64 (table_b2a_base64 v) = v /\
  table_b2a_base64 v <> 61 /\ table_b2a_base64 v <> 13.
Proof.
  intros Hv.
  pose proof (check_below 64
    (fun v => (table_a2b_base64 (table_b2a_base64 v) =? v)
              && negb (table_b2a_base64 v =? 61)
              && negb (table_b2a_base64 v =? 13)) v eq_refl Hv) as H.
  simpl in H. apply andb_true_iff in H as [H H3]. apply andb_true_iff in H as [H1 H2].
  apply Z.eqb_eq in H1. apply negb_true_iff, Z.eqb_neq in H2.
  apply negb_true_iff, Z.eqb_neq in H3. done.
Qed.

Lemma sextet_facts_all a b : is_byte a -> is_byte b -> sextet_facts a b = true.
Proof.
  intros Ha Hb. apply (check_below2 256 256 sextet_facts a b); [|done|done].
  vm_compute. reflexivity.
Qed.

(** One data character of the encoding, seen by the decoding loop. *)
Lemma a2b_loop_sextet st v rest :
  0 <= v < 64 ->
  a2b_loop st (table_b2a_base64 v :: rest) =
    if quad_pos st =? 0 then a2b_loop (A2B 1 v 0 (bin_data st)) rest
    else if quad_pos st =? 1 then
      a2b_loop (A2B 2 (Z.land v 15) 0
                  (Z.lor (Z.shiftl (leftchar st) 2) (Z.shiftr v 4) mod 256
                   :: bin_data st)) rest
    else if quad_pos st =? 2 then
      a2b_loop (A2B 3 (Z.land v 3) 0
                  (Z.lor (Z.shiftl (leftchar st) 4) (Z.shiftr v 2) mod 256
                   :: bin_data st)) rest
    else
      a2b_loop (A2B 0 0 0
                  (Z.lor (Z.shiftl (leftchar st) 6) v mod 256 :: bin_data st)) rest.
Proof.
  intros Hv. destruct (table_roundtrip v Hv) as (Hd & Hpad & _).
  cbn [a2b_loop]. rewrite Hd.
  destruct (table_b2a_base64 v =? 61) eqn:E; [by apply Z.eqb_eq in E|].
  destruct (64 <=? v) eqn:E'; [apply Z.leb_le in E'; lia | done].
Qed.

Lemma a2b_step0 v lc p out rest :
  0 <= v < 64 ->
  a2b_loop (A2B 0 lc p out) (table_b2a_base64 v :: rest) =
  a2b_loop (A2B 1 v 0 out) rest.
Proof. intros Hv. by rewrite a2b_loop_sextet. Qed.

Lemma a2b_step1 v lc p out rest :
  0 <= v < 64 ->
  a2b_loop (A2B 1 lc p out) (table_b2a_base64 v :: rest) =
  a2b_loop (A2B 2 (Z.land v 15) 0
              (Z.lor (Z.shiftl lc 2) (Z.shiftr v 4) mod 256 :: out)) rest.
Proof. intros Hv. by rewrite a2b_loop_sextet. Qed.

Lemma a2b_step2 v lc p out rest :
  0 <= v < 64 ->
  a2b_loop (A2B 2 lc p out) (table_b2a_base64 v :: rest) =
  a2b_loop (A2B 3 (Z.land v 3) 0
              (Z.lor (Z.shiftl lc 4) (Z.shiftr v 2) mod 256 :: out)) rest.
Proof. intros Hv. by rewrite a2b_loop_sextet. Qed.

Lemma a2b_step3 v lc p out rest :
  0 <= v < 64 ->
  a2b_loop (A2B 3 lc p out) (table_b2a_base64 v :: rest) =
  a2b_loop (A2B 0 0 0 (Z.lor (Z.shiftl lc 6) v mod 256 :: out)) rest.
Proof. intros Hv. by rewrite a2b_loop_sextet. Qed.

Ltac sextet_facts a b Ha Hb :=
  let H := fresh "H" in
  pose proof (sextet_facts_all a b Ha Hb) as H;
  unfold sextet_facts in H;
  repeat (apply andb_true_iff in H as [H ?]);
  repeat match goal with
         | E : (_ <? _) = true |- _ => apply Z.ltb_lt in E
         | E : (_ <=? _) = true |- _ => apply Z.leb_le in E
         | E : (_ =? _) = true |- _ => apply Z.eqb_eq in E
         end.

(** Lists are processed three bytes at a time. *)
Lemma list_ind3 {A} (P : list A -> Prop) :
  P [] -> (forall a, P [a]) -> (forall a b, P [a; b]) ->
  (forall a b c l, P l -> P (a :: b :: c :: l)) ->
  forall l, P l.
Proof.
  intros H0 H1 H2 H3 l.
  assert (P l /\ (forall a, P (a :: l)) /\ (forall a b, P (a :: b :: l))) as [? _];
    [|done].
  induction l as [|x l (IH0 & IH1 & IH2)]; [by eauto|].
  split; [apply IH1|]. split; [intros a; apply IH2|]. intros a b. by apply H3.
Qed.

Ltac sextet_range := split; assumption.

Lemma a2b_loop_encode l : forall lc p out,
  is_bytes l ->
  a2b_loop (A2B 0 lc p out) (b64encode l) = Ok (rev out ++ l).
Proof.
  induction l as [| a | a b | a b c l IH] using list_ind3; intros lc p out Hl.
  - simpl. by rewrite app_nil_r.
  - apply Forall_inv in Hl as Ha. sextet_facts a a Ha Ha.
    cbn [b64encode].
    rewrite a2b_step0, a2b_step1 by sextet_range.
    match goal with E : _ = a |- _ => rewrite E end.
    simpl. done.
  - apply Forall_inv in Hl as Ha. apply Forall_inv_tail, Forall_inv in Hl as Hb.
    sextet_facts a b Ha Hb. sextet_facts b b Hb Hb.
    cbn [b64encode].
    rewrite a2b_step0, a2b_step1, a2b_step2 by sextet_range.
    repeat match goal with E : _ = a |- _ => rewrite E | E : _ = b |- _ => rewrite E end.
    simpl. by rewrite <- app_assoc.
  - apply Forall_inv in Hl as Ha. apply Forall_inv_tail in Hl as Hl1.
    apply Forall_inv in Hl1 as Hb. apply Forall_inv_tail in Hl1 as Hl2.
    apply Forall_inv in Hl2 as Hc. apply Forall_inv_tail in Hl2 as Hl3.
    sextet_facts a b Ha Hb. sextet_facts b c Hb Hc. sextet_facts c c Hc Hc.
    cbn [b64encode].
    rewrite a2b_step0, a2b_step1, a2b_step2, a2b_step3 by sextet_range.
    repeat match goal with
           | E : Z.land _ _ = Z.shiftr _ _ |- _ => rewrite E
           | E : _ mod 256 = _ |- _ => rewrite E
           end.
    rewrite IH by done. cbn [rev]. by rewrite <- !app_assoc.
Qed.

(** Decoding an encoding gives the bytes back. *)
Lemma b64decode_encode l : is_bytes l -> b64decode (b64encode l) = Ok l.
Proof. intros Hl. unfold b64decode. by rewrite a2b_loop_encode. Qed.

Lemma b64encode_nonempty l : l <> [] -> b64encode l <> [].
Proof. by destruct l as [|a [|b [|c l]]]. Qed.

Lemma table_no_cr v : 0 <= v < 64 -> 13 <> table_b2a_base64 v.
Proof. intros Hv E. by apply (table_roundtrip v Hv). Qed.

Lemma b64encode_no_cr l : is_bytes l -> 13 ∉ b64encode l.
Proof.
  induction l as [| a | a b | a b c l IH] using list_ind3; intros Hl.
  - apply not_elem_of_nil.
  - apply Forall_inv in Hl as Ha. sextet_facts a a Ha Ha.
    cbn [b64encode]. rewrite !not_elem_of_cons.
    repeat split; try done; try (apply table_no_cr; split; assumption). apply not_elem_of_nil.
  - apply Forall_inv in Hl as Ha. apply Forall_inv_tail, Forall_inv in Hl as Hb.
    sextet_facts a b Ha Hb. sextet_facts b b Hb Hb.
    cbn [b64encode]. rewrite !not_elem_of_cons.
    repeat split; try done; try (apply table_no_cr; split; assumption). apply not_elem_of_nil.
  - apply Forall_inv in Hl as Ha. apply Forall_inv_tail in Hl as Hl1.
    apply Forall_inv in Hl1 as Hb. apply Forall_inv_tail in Hl1 as Hl2.
    apply Forall_inv in Hl2 as Hc. apply Forall_inv_tail in Hl2 as Hl3.
    sextet_facts a b Ha Hb. sextet_facts b c Hb Hc. sextet_facts c c Hc Hc.
    cbn [b64encode]. rewrite !not_elem_of_cons.
    repeat split; try (apply table_no_cr; split; assumption). by apply IH.
Qed.

(** ** UTF-8 *)

Ltac zbool :=
  repeat match goal with
    | |- context [?a <? ?b] =>
        first [ rewrite (proj2 (Z.ltb_lt a b)) by lia
              | rewrite (proj2 (Z.ltb_ge a b)) by lia ]
    | |- context [?a <=? ?b] =>
        first [ rewrite (proj2 (Z.leb_le a b)) by lia
              | rewrite (proj2 (Z.leb_gt a b)) by lia ]
    | |- context [?a =? ?b] =>
        first [ rewrite (proj2 (Z.eqb_eq a b)) by lia
              | rewrite (proj2 (Z.eqb_neq a b)) by lia ]
    end.

Ltac zhyps :=
  repeat match goal with
    | H : (_ && _) = true |- _ => apply andb_true_iff in H as [? ?]
    | H : (_ && _) = false |- _ => apply andb_false_iff in H as [?|?]
    | H : negb _ = true |- _ => apply negb_true_iff in H
    | H : negb _ = false |- _ => apply negb_false_iff in H
    | H : (_ <? _) = true |- _ => apply Z.ltb_lt in H
    | H : (_ <? _) = false |- _ => apply Z.ltb_ge in H
    | H : (_ <=? _) = true |- _ => apply Z.leb_le in H
    | H : (_ <=? _) = false |- _ => apply Z.leb_gt in H
    | H : (_ =? _) = true |- _ => apply Z.eqb_eq in H
    | H : (_ =? _) = false |- _ => apply Z.eqb_neq in H
    end.

(** The bytes of an encoded character lie in [0, 256). *)
Lemma utf8_encode_char_is_bytes c bs :
  is_scalar c -> utf8_encode_char c = Ok bs -> is_bytes bs.
Proof.
  unfold is_scalar, utf8_encode_char. intros Hc.
  pose proof (Z.mod_pos_bound c 64 ltac:(lia)).
  pose proof (Z.mod_pos_bound (c / 64) 64 ltac:(lia)).
  pose proof (Z.mod_pos_bound (c / 4096) 64 ltac:(lia)).
  assert (0 <= c / 64 < 32 \/ 2048 <= c)
    by (destruct (decide (c < 2048)); [left; split; [apply Z.div_pos | apply Z.div_lt_upper_bound]; lia | lia]).
  assert (0 <= c / 4096 < 16 \/ 65536 <= c)
    by (destruct (decide (c < 65536)); [left; split; [apply Z.div_pos | apply Z.div_lt_upper_bound]; lia | lia]).
  assert (0 <= c / 262144 < 16)
    by (split; [apply Z.div_pos | apply Z.div_lt_upper_bound]; lia).
  destruct (c <? 128) eqn:E1; [|destruct (c <? 2048) eqn:E2;
    [|destruct (c <? 65536) eqn:E3; [destruct (_ && _) eqn:E4; [done|]|]]];
    intros [= <-]; zhyps; repeat constructor; unfold is_byte; lia.
Qed.

Lemma utf8_encode_is_bytes s bs :
  Forall is_scalar s -> utf8_encode s = Ok bs -> is_bytes bs.
Proof.
  intros Hs. revert bs. induction Hs as [|c s Hc Hs IH]; intros bs; simpl.
  - intros [= <-]. constructor.
  - destruct (utf8_encode_char c) as [b|e] eqn:E; simpl; [|done].
    destruct (utf8_encode s) as [bs'|e]; simpl; [|done].
    intros [= <-]. apply Forall_app. split; [|by apply IH].
    by apply (utf8_encode_char_is_bytes c).
Qed.

(** Every scalar value has an encoding. *)
Lemma utf8_encode_scalar s : Forall is_scalar s -> exists bs, utf8_encode s = Ok bs.
Proof.
  induction 1 as [|c s Hc Hs [bs IH]]; simpl; [by eauto|].
  rewrite IH. unfold utf8_encode_char, is_scalar in *.
  destruct (c <? 128); [by eauto|]. destruct (c <? 2048); [by eauto|].
  destruct (c <? 65536); [|by eauto].
  destruct ((55296 <=? c) && (c <=? 57343)) eqn:E; [|by eauto].
  zhyps. lia.
Qed.

(** Decoding the encoding of one character gives it back and moves past
    its bytes. *)
Lemma utf8_decode_char c bs rest :
  is_scalar c -> utf8_encode_char c = Ok bs ->
  utf8_decode_aux O (bs ++ rest) = c :: utf8_decode_aux O rest.
Proof.
  unfold is_scalar, utf8_encode_char. intros Hc.
  destruct (c <? 128) eqn:E1; [|destruct (c <? 2048) eqn:E2;
    [|destruct (c <? 65536) eqn:E3; [destruct (_ && _) eqn:E4; [done|clear E4]|]]];
    intros [= <-]; zhyps.
  - cbn [app utf8_decode_aux utf8_step]. zbool. done.
  - pose proof (Z.div_mod c 64 ltac:(lia)) as Hdm.
    pose proof (Z.mod_pos_bound c 64 ltac:(lia)) as Hr.
    revert Hdm Hr. generalize (c / 64) (c mod 64). intros q r Hdm Hr.
    cbn [app utf8_decode_aux utf8_step]. unfold is_continuation. zbool.
    cbn [andb Nat.pred]. f_equal. lia.
  - replace (c / 4096) with (c / 64 / 64) by (rewrite Z.div_div by lia; done).
    pose proof (Z.div_mod c 64 ltac:(lia)) as Hdm.
    pose proof (Z.mod_pos_bound c 64 ltac:(lia)) as Hr.
    pose proof (Z.div_mod (c / 64) 64 ltac:(lia)) as Hdm2.
    pose proof (Z.mod_pos_bound (c / 64) 64 ltac:(lia)) as Hr2.
    revert Hdm Hr Hdm2 Hr2.
    generalize (c / 64 / 64) ((c / 64) mod 64). generalize (c / 64) (c mod 64).
    intros q r q2 r2 Hdm Hr Hdm2 Hr2.
    cbn [app utf8_decode_aux utf8_step].
    unfold second_of_3_ok, is_continuation. zbool. cbn [andb].
    destruct (128 + r2 <? 160) eqn:E; zhyps; zbool; cbn [negb Nat.pred];
      f_equal; lia.
  - replace (c / 262144) with (c / 64 / 64 / 64) by (rewrite !Z.div_div by lia; done).
    replace (c / 4096) with (c / 64 / 64) by (rewrite Z.div_div by lia; done).
    pose proof (Z.div_mod c 64 ltac:(lia)) as Hdm.
    pose proof (Z.mod_pos_bound c 64 ltac:(lia)) as Hr.
    pose proof (Z.div_mod (c / 64) 64 ltac:(lia)) as Hdm2.
    pose proof (Z.mod_pos_bound (c / 64) 64 ltac:(lia)) as Hr2.
    pose proof (Z.div_mod (c / 64 / 64) 64 ltac:(lia)) as Hdm3.
    pose proof (Z.mod_pos_bound (c / 64 / 64) 64 ltac:(lia)) as Hr3.
    revert Hdm Hr Hdm2 Hr2 Hdm3 Hr3.
    generalize (c / 64 / 64 / 64) ((c / 64 / 64) mod 64).
    generalize (c / 64 / 64) ((c / 64) mod 64). generalize (c / 64) (c mod 64).
    intros q r q2 r2 q3 r3 Hdm Hr Hdm2 Hr2 Hdm3 Hr3.
    cbn [app utf8_decode_aux utf8_step].
    unfold second_of_4_ok, is_continuation. zbool. cbn [andb].
    destruct (128 + r3 <? 144) eqn:E; zhyps; zbool; cbn [negb Nat.pred];
      f_equal; lia.
Qed.

Lemma utf8_decode_encode s bs :
  Forall is_scalar s -> utf8_encode s = Ok bs -> utf8_decode bs = s.
Proof.
  unfold utf8_decode. intros Hs. revert bs.
  induction Hs as [|c s Hc Hs IH]; intros bs; simpl.
  - by intros [= <-].
  - destruct (utf8_encode_char c) as [b|e] eqn:E; simpl; [|done].
    destruct (utf8_encode s) as [bs'|e]; simpl; [|done].
    intros [= <-]. rewrite (utf8_decode_char c b bs' Hc E). f_equal. by apply IH.
Qed.

(** Whatever the bytes, a step of the decoder produces a scalar value:
    overlong forms, surrogates and values above U+10FFFF are replaced. *)
Lemma utf8_step_scalar l : is_bytes l -> is_scalar (utf8_step l).1.
Proof.
  unfold is_scalar, utf8_step, second_of_3_ok, second_of_4_ok, is_continuation,
    REPLACEMENT_CHARACTER.
  unfold is_bytes. intros Hl.
  repeat match goal with
         | |- context [match ?x with [] => _ | _ :: _ => _ end] =>
             destruct x; [simpl; lia|]
         | H : context [if ?b then _ else _] |- _ =>
             let E := fresh "E" in destruct b eqn:E; zhyps; try (simpl; lia)
         | H : Forall is_byte (_ :: _) |- _ =>
             let Hb := fresh "Hb" in
             pose proof (Forall_inv H) as Hb; apply Forall_inv_tail in H;
             unfold is_byte in Hb
         | |- context [if ?b then _ else _] =>
             let E := fresh "E" in destruct b eqn:E; zhyps; try (simpl; lia)
         end.
Qed.

Lemma utf8_decode_aux_scalar l : forall skip,
  is_bytes l -> Forall is_scalar (utf8_decode_aux skip l).
Proof.
  induction l as [|b l IH]; intros skip Hl; [constructor|].
  cbn [utf8_decode_aux]. destruct skip as [|k].
  - pose proof (utf8_step_scalar (b :: l) Hl) as Hs.
    destruct (utf8_step (b :: l)) as [c n]. constructor; [done|].
    apply IH. by apply Forall_inv_tail in Hl.
  - apply IH. by apply Forall_inv_tail in Hl.
Qed.

Lemma utf8_decode_scalar l : is_bytes l -> Forall is_scalar (utf8_decode l).
Proof. apply utf8_decode_aux_scalar. Qed.

(** ** Splitting and the marker *)

Lemma split_aux_no_cr sep cur l :
  13 ∉ l -> split_aux (13 :: sep) O cur l = [rev cur ++ l].
Proof.
  revert cur. induction l as [|b l IH]; intros cur Hl.
  - simpl. by rewrite app_nil_r.
  - apply not_elem_of_cons in Hl as [Hb Hl].
    cbn [split_aux starts_with].
    destruct (13 =? b) eqn:E; [by apply Z.eqb_eq in E|].
    cbn [andb]. rewrite IH by done. simpl. by rewrite <- app_assoc.
Qed.

Lemma seq_split_no_cr l : 13 ∉ l -> seq_split CRLF l = [l].
Proof. intros Hl. unfold seq_split, CRLF. by rewrite split_aux_no_cr. Qed.

Lemma seq_find_prefix sub rest : seq_find sub (sub ++ rest) = 0.
Proof.
  unfold seq_find.
  assert (starts_with sub (sub ++ rest) = true) as H
    by (apply starts_with_spec; eauto).
  destruct (sub ++ rest); simpl; by rewrite H.
Qed.

Lemma records_after_marker rest :
  records (WORDS_MARKER ++ rest) = seq_split CRLF rest.
Proof.
  unfold records. rewrite seq_find_prefix. unfold slice_from, len.
  replace (Z.to_nat (0 + Z.of_nat (length WORDS_MARKER))) with (length WORDS_MARKER)
    by lia.
  by rewrite drop_app_length.
Qed.

Lemma load_superdic_records data nonce fraction :
  load_superdic data nonce fraction =
    if seq_find WORDS_MARKER data =? -1 then Raise (SystemExit 1)
    else for_each (superdic_line nonce fraction) (0, ∅) (records data).
Proof. done. Qed.

(** ** Round trip *)

(** The XOR layer of the specification, byte by byte. *)
Lemma xor_cycle_lookup (text : list Z) : forall (k i : nat),
  xor_cycle k text !! i =
    (fun b => Z.lxor b (nth ((k + i) mod 8)%nat [55; 65; 86; 70; 85; 56; 80; 80] 0))
      <$> text !! i.
Proof.
  induction text as [|b text IH]; intros k i; [done|].
  destruct i as [|i]; cbn [xor_cycle].
  - rewrite Nat.add_0_r. done.
  - change ((b :: text) !! S i) with (text !! i).
    change ((?x :: xor_cycle (S k) text) !! S i) with (xor_cycle (S k) text !! i).
    rewrite IH. by replace (S k + i)%nat with (k + S i)%nat by lia.
Qed.

(** The decoder applies the same layer as the specification describes. *)
Lemma xor_cycle_xor_key (text : list Z) : xor_cycle 0 text = xor_key text.
Proof.
  apply list_eq. intros i. unfold xor_key.
  by rewrite xor_cycle_lookup, list_lookup_imap.
Qed.

Lemma decode_encode_record text :
  is_bytes text -> b64decode (encode_record text) = Ok (xor_key text).
Proof.
  intros Ht. unfold encode_record. rewrite xor_cycle_xor_key.
  by rewrite b64decode_encode by by apply xor_key_is_bytes.
Qed.

(** What a record holds: the masked bytes of its text, which Base64
    decoding returns and the XOR of the decoder turns back into the
    text. *)
Lemma encode_record_masked (text : list Z) :
  is_bytes text ->
  exists masked,
    (forall i : nat,
       masked !! i =
         (fun b => Z.lxor b (nth (i mod 8)%nat [55; 65; 86; 70; 85; 56; 80; 80] 0))
           <$> text !! i) /\
    encode_record text = b64encode masked /\
    b64decode (encode_record text) = Ok masked /\
    xor_key masked = text.
Proof.
  intros Ht. exists (xor_cycle 0 text). split; [|split; [done|split]].
  - intros i. by rewrite xor_cycle_lookup.
  - rewrite decode_encode_record by done. by rewrite xor_cycle_xor_key.
  - by rewrite xor_cycle_xor_key, xor_key_involutive.
Qed.

Lemma decode_record_encoded word rest text :
  Forall is_scalar (word ++ 61 :: rest) -> 61 ∉ word ->
  utf8_encode (word ++ 61 :: rest) = Ok text ->
  decode_record (encode_record text) = Ok (word, rest).
Proof.
  intros Hs Hw Henc. apply decode_record_ok. exists (xor_key text).
  assert (is_bytes text) as Ht by by apply (utf8_encode_is_bytes _ _ Hs).
  split; [by apply decode_encode_record|].
  by rewrite xor_key_involutive, (utf8_decode_encode _ _ Hs Henc).
Qed.

Lemma encode_record_nonempty text : text <> [] -> encode_record text <> [].
Proof.
  intros Ht. apply b64encode_nonempty. by destruct text.
Qed.

Lemma utf8_encode_nonempty s bs : s <> [] -> utf8_encode s = Ok bs -> bs <> [].
Proof.
  destruct s as [|c s]; [done|]. intros _. simpl.
  destruct (utf8_encode_char c) as [b|e] eqn:E; simpl; [|done].
  destruct (utf8_encode s) as [bs'|e]; simpl; [|done].
  intros [= <-]. unfold utf8_encode_char in E.
  repeat match type of E with
         | (if ?b then _ else _) = _ => destruct b
         end; try discriminate; by injection E as <-.
Qed.

(** ** Failures of the decoder *)

Lemma a2b_loop_raises st l e : a2b_loop st l = Raise e -> e = BinasciiError.
Proof.
  revert st. induction l as [|c l IH]; intros st; cbn [a2b_loop].
  - destruct (_ =? 0); congruence.
  - repeat match goal with
           | |- context [if ?b then _ else _] => destruct b
           end; try congruence; apply IH.
Qed.

Lemma a2b_loop_is_bytes st l r :
  is_bytes (bin_data st) -> a2b_loop st l = Ok r -> is_bytes r.
Proof.
  assert (forall x, is_byte (x mod 256)) as Hmod
    by (intros x; apply Z.mod_pos_bound; lia).
  revert st. induction l as [|c l IH]; intros st Hst; cbn [a2b_loop].
  - destruct (_ =? 0); [|done]. intros [= <-]. by apply Forall_rev.
  - repeat match goal with
           | |- context [if ?b then _ else _] => destruct b
           end;
      try (intros [= <-]; by apply Forall_rev);
      apply IH; cbn [bin_data]; try done; by constructor.
Qed.

Lemma b64decode_is_bytes l r : b64decode l = Ok r -> is_bytes r.
Proof. apply a2b_loop_is_bytes. constructor. Qed.

Lemma b64decode_raises l e : b64decode l = Raise e -> e = BinasciiError.
Proof. apply a2b_loop_raises. Qed.

(** The words of decoded records can always be encoded again. *)
Lemma decode_record_scalar line word rest :
  decode_record line = Ok (word, rest) -> Forall is_scalar word.
Proof.
  intros H. apply decode_record_ok in H as (raw & Hraw & Htext & _).
  apply b64decode_is_bytes, xor_key_is_bytes, utf8_decode_scalar in Hraw.
  rewrite Htext in Hraw. by apply Forall_app in Hraw as [? _].
Qed.

(** A record fails to decode either in Base64 or for want of ['=']. *)
Lemma decode_record_raise line :
  (exists e, decode_record line = Raise e) <->
  b64decode line = Raise BinasciiError \/
  exists raw, b64decode line = Ok raw /\ 61 ∉ utf8_decode (xor_key raw).
Proof.
  unfold decode_record. destruct (b64decode line) as [raw|e] eqn:E; simpl.
  - destruct (seq_index EQ_SIGN (utf8_decode (xor_key raw))) as [p|e] eqn:Ei; simpl.
    + split; [by intros [e ?]|]. intros [?|(raw' & [= <-] & Hn)]; [done|].
      apply seq_index_absent in Hn. unfold EQ_SIGN in Ei. congruence.
    + split; [|by eauto]. intros _. right. exists raw. split; [done|].
      apply seq_index_absent. pose proof (seq_index_raises _ _ _ Ei).
      unfold EQ_SIGN in Ei. congruence.
  - apply b64decode_raises in E as ->. split; [by eauto|]. by eauto.
Qed.

Lemma decode_record_exn line e :
  decode_record line = Raise e -> e = BinasciiError \/ e = ValueError.
Proof.
  unfold decode_record. destruct (b64decode line) as [raw|e'] eqn:E; simpl.
  - destruct (seq_index EQ_SIGN (utf8_decode (xor_key raw))) as [p|e'] eqn:Ei; simpl;
      [done|]. intros [= <-]. right. by apply seq_index_raises in Ei.
  - intros [= <-]. left. by apply b64decode_raises in E.
Qed.

(** With a non-zero denominator and an encodable salt the sampler
    answers for every encodable word. *)
Lemma should_include_total word nonce fraction :
  fraction <> 0 -> Forall is_scalar nonce -> Forall is_scalar word ->
  exists inc, should_include word nonce fraction = Ok inc.
Proof.
  intros Hf Hn Hw. rewrite should_include_eq.
  destruct (fraction =? 1); [by eauto|].
  destruct (utf8_encode_scalar (nonce ++ word)) as [bs ->];
    [by apply Forall_app|].
  simpl. destruct (fraction =? 0) eqn:E; [by apply Z.eqb_eq in E | by eauto].
Qed.

Lemma accept_word_total nonce fraction st word :
  fraction <> 0 -> Forall is_scalar nonce -> Forall is_scalar word ->
  exists st', accept_word nonce fraction st word = Ok st'.
Proof.
  intros Hf Hn Hw. destruct st as [total words]. unfold accept_word.
  destruct (should_include_total word nonce fraction Hf Hn Hw) as [inc ->].
  simpl. eauto.
Qed.

(** One iteration of the reference loader fails exactly when its record
    is non-empty and does not decode, with the decoder's exception. *)
Lemma superdic_line_raise nonce fraction st line e :
  fraction <> 0 -> Forall is_scalar nonce ->
  superdic_line nonce fraction st line = Raise e <->
  line <> [] /\ decode_record line = Raise e.
Proof.
  intros Hf Hn. destruct line as [|b line]; [by split; [|intros [? _]]|].
  rewrite superdic_line_decode by done.
  destruct (decode_record (b :: line)) as [[word rest]|e'] eqn:E; simpl.
  - split; [|by intros [_ ?]]. destruct (is_variant rest); [done|].
    destruct (length_ok word); [|done].
    destruct (accept_word_total nonce fraction st word Hf Hn) as [st' ->]; [|done].
    by apply (decode_record_scalar (b :: line) word rest).
  - split; [by intros [= <-] | by intros [_ [= <-]]].
Qed.

(** The loop fails exactly when some iteration would fail, provided
    that failure does not depend on the loop state. *)
Lemma for_each_raise {S A} (body : S -> A -> result S) (bad : A -> Prop) l :
  (forall st x, (exists e, body st x = Raise e) <-> bad x) ->
  forall st, (exists e, for_each body st l = Raise e) <-> exists x, x ∈ l /\ bad x.
Proof.
  intros Hbad. induction l as [|x l IH]; intros st.
  - split; [by intros [e ?]|]. intros (x & Hx & _). by apply elem_of_nil in Hx.
  - rewrite for_each_cons. destruct (body st x) as [st'|e] eqn:E; simpl.
    + rewrite IH. split.
      * intros (y & Hy & Hb). exists y. split; [by right | done].
      * intros (y & Hy & Hb). apply elem_of_cons in Hy as [->|Hy]; [|by eauto].
        apply (Hbad st) in Hb as [e He]. congruence.
    + split; [|by eauto]. intros _. exists x. split; [by left|].
      apply (Hbad st). eauto.
Qed.

Lemma for_each_raise_exn {S A} (body : S -> A -> result S) (P : exn -> Prop) l :
  (forall st x e, body st x = Raise e -> P e) ->
  forall st e, for_each body st l = Raise e -> P e.
Proof.
  intros Hbody. induction l as [|x l IH]; intros st e; [done|].
  rewrite for_each_cons. destruct (body st x) as [st'|e'] eqn:E; simpl.
  - apply IH.
  - intros [= <-]. by apply (Hbody st x).
Qed.

Lemma superdic_line_bad nonce fraction st line :
  fraction <> 0 -> Forall is_scalar nonce ->
  (exists e, superdic_line nonce fraction st line = Raise e) <-> bad_record line.
Proof.
  intros Hf Hn. unfold bad_record. rewrite <- decode_record_raise. split.
  - intros [e He]. apply superdic_line_raise in He as [? ?]; eauto.
  - intros [Hl [e He]]. exists e. by apply superdic_line_raise.
Qed.

(** ** Denominator 1 *)

Lemma size_list_le (l : list (list Z)) : (size (list_to_set l : wordset) <= length l)%nat.
Proof.
  induction l as [|x l IH].
  - by rewrite list_to_set_nil, size_empty.
  - rewrite list_to_set_cons. pose proof (size_add_le x (list_to_set l)).
    simpl length. lia.
Qed.

(** The set of a list has as many elements as the list exactly when the
    list has no repetition. *)
Lemma size_list_to_set_iff (l : list (list Z)) :
  size (list_to_set l : wordset) = length l <-> NoDup l.
Proof.
  split; [|apply size_list_to_set].
  induction l as [|x l IH]; [constructor|].
  rewrite list_to_set_cons. simpl length. intros H.
  pose proof (size_list_le l) as Hle.
  pose proof (size_add_le x (list_to_set l)) as Hadd.
  destruct (decide (x ∈ l)) as [Hin|Hin].
  - exfalso.
    replace ({[x]} ∪ list_to_set l : wordset) with (list_to_set l : wordset) in H
      by (apply set_eq; intros y; rewrite elem_of_union, elem_of_singleton,
            !elem_of_list_to_set; split; [by right | by intros [->|?]]).
    lia.
  - constructor; [done|]. apply IH. lia.
Qed.

Lemma load_candidate_fraction_1 upper stream nonce :
  load_candidate upper stream nonce 1 = Ok (counted (candidate_words upper stream)).
Proof.
  unfold load_candidate, counted. rewrite load_candidate_accept, accept_all_fraction_1.
  f_equal. f_equal. set_solver.
Qed.

Lemma load_superdic_fraction_1 data nonce ws :
  is_substring WORDS_MARKER data ->
  accepted_words (records data) = Ok ws ->
  load_superdic data nonce 1 = Ok (counted ws).
Proof.
  intros Hm Hws. rewrite load_superdic_records.
  destruct (seq_find WORDS_MARKER data =? -1) eqn:E.
  - apply Z.eqb_eq, seq_find_absent in E. tauto.
  - rewrite (load_superdic_accept _ _ _ _ _ Hws), accept_all_fraction_1.
    unfold counted. f_equal. f_equal. set_solver.
Qed.

(** A loader that returns has decoded every record. *)
Lemma load_superdic_ok_accepted data nonce fraction st :
  load_superdic data nonce fraction = Ok st ->
  is_substring WORDS_MARKER data /\ exists ws, accepted_words (records data) = Ok ws.
Proof.
  rewrite load_superdic_records.
  destruct (seq_find WORDS_MARKER data =? -1) eqn:E; [done|].
  apply Z.eqb_neq in E. intros H. split.
  - destruct (find_from_present _ _ _ E) as (pre & post & -> & _). by exists pre, post.
  - revert H. generalize (0, ∅ : wordset). generalize (records data).
    intros lines. induction lines as [|line lines IH]; intros st0; [by eauto|].
    rewrite for_each_cons. destruct line as [|b line]; [apply IH|].
    rewrite superdic_line_decode by done.
    change (accepted_words ((b :: line) :: lines))
      with (wr ← decode_record (b :: line);
            ws ← accepted_words lines;
            Ok (if is_variant wr.2 then ws
                else if length_ok wr.1 then wr.1 :: ws else ws)).
    destruct (decode_record (b :: line)) as [[word rest]|e]; simpl; [|done].
    intros H.
    assert (exists ws, accepted_words lines = Ok ws) as [ws ->]; [|simpl; by eauto].
    destruct (is_variant rest); [by eapply IH|].
    destruct (length_ok word); [|by eapply IH].
    destruct (accept_word nonce fraction st0 word); simpl in H; [by eapply IH | done].
Qed.

(** ** The report *)




(** ** Non-positive denominators *)

Lemma max_hash_div_negative fraction : fraction < 0 -> MAX_HASH / fraction < 0.
Proof.
  intros Hf. unfold MAX_HASH.
  assert (0 < 2 ^ 256) as Hp by (apply Z.pow_pos_nonneg; lia).
  pose proof (Z.div_mod (2 ^ 256) fraction ltac:(lia)) as Hdm.
  pose proof (Z.mod_neg_bound (2 ^ 256) fraction Hf) as Hr.
  revert Hp Hdm Hr. generalize (2 ^ 256 / fraction) (2 ^ 256 mod fraction) (2 ^ 256).
  intros q r a Hp Hdm Hr. nia.
Qed.

Lemma should_include_nonpositive word nonce fraction bs :
  fraction <= 0 -> utf8_encode (nonce ++ word) = Ok bs ->
  should_include word nonce fraction =
    if fraction =? 0 then Raise ZeroDivisionError else Ok false.
Proof.
  intros Hf Henc. rewrite should_include_eq, Henc.
  destruct (fraction =? 1) eqn:E1; [apply Z.eqb_eq in E1; lia|]. simpl.
  destruct (fraction =? 0) eqn:E0; [done|]. apply Z.eqb_neq in E0.
  pose proof (sha256_int_range bs). pose proof (max_hash_div_negative fraction).
  f_equal. apply Z.ltb_ge. lia.
Qed.

Lemma should_include_never_true word nonce fraction :
  fraction <= 0 -> should_include word nonce fraction <> Ok true.
Proof.
  intros Hf. destruct (utf8_encode (nonce ++ word)) as [bs|e] eqn:E.
  - rewrite (should_include_nonpositive _ _ _ bs Hf E). by destruct (fraction =? 0).
  - rewrite should_include_eq, E.
    destruct (fraction =? 1) eqn:E1; [apply Z.eqb_eq in E1; lia | done].
Qed.

Lemma accept_all_nonpositive (nonce : list Z) (fraction : Z) (ws : list (list Z))
    (total total' : Z) (words' : wordset) :
  fraction <= 0 ->
  for_each (accept_word nonce fraction) (total, ∅) ws = Ok (total', words') ->
  words' = ∅.
Proof.
  intros Hf H. apply accept_all_ok in H as [_ Hw].
  apply set_eq. intros w. rewrite Hw. split; [|set_solver].
  intros [?|[_ Hs]]; [done|]. by apply should_include_never_true in Hs.
Qed.

Lemma main_starts_loading upper args data stdin :
  language args ∈ SUPPORTED_LANGUAGES ->
  exists evs, (main upper args (Ok data) stdin).1 = LoadingDictionary :: evs.
Proof.
  intros Hl. unfold main. rewrite bool_decide_true by done. cbn [negb].
  destruct (load_superdic data (nonce args) (fraction args)) as [[rt ref]|e].
  - destruct (load_candidate upper stdin (nonce args) (fraction args)) as [[ct cand]|e];
      simpl; eauto.
  - destruct e; simpl; eauto.
Qed.

(** ** The loaders as samples of their admitted words *)

Lemma load_superdic_sample (data nonce : list Z) (fraction total : Z) (words : wordset) :
  load_superdic data nonce fraction = Ok (total, words) ->
  exists ws, accepted_words (records data) = Ok ws /\
    total = Z.of_nat (length ws) /\
    forall w, w ∈ words <-> w ∈ ws /\ should_include w nonce fraction = Ok true.
Proof.
  intros H. destruct (load_superdic_ok_accepted _ _ _ _ H) as (_ & ws & Hws).
  exists ws. split; [done|].
  rewrite load_superdic_records in H. destruct (_ =? -1); [done|].
  rewrite (load_superdic_accept _ _ _ _ _ Hws) in H.
  apply accept_all_ok in H as [-> Hw]. split; [lia|].
  intros w. rewrite Hw. set_solver.
Qed.

Lemma load_candidate_sample (upper : list Z -> list Z) (stream : list (list Z))
    (nonce : list Z) (fraction total : Z) (words : wordset) :
  load_candidate upper stream nonce fraction = Ok (total, words) ->
  total = Z.of_nat (length (candidate_words upper stream)) /\
  forall w, w ∈ words <->
    w ∈ candidate_words upper stream /\ should_include w nonce fraction = Ok true.
Proof.
  unfold load_candidate. rewrite load_candidate_accept. intros H.
  apply accept_all_ok in H as [-> Hw]. split; [lia|].
  intros w. rewrite Hw. set_solver.
Qed.

(** ** One-word candidate sets *)




(** ** The percentages in exact arithmetic *)








(** * The claims of the specification *)

(** ** The example data, as the script sees it *)

(** The record [CAT=] is the line [dAACew==]. *)
Example record_CAT_bytes : record_CAT = [100; 65; 65; 67; 101; 119; 61; 61].
Proof. reflexivity. Qed.

Example record_RUN_1_bytes : record_RUN_1 = [90; 82; 81; 89; 101; 50; 52; 74].
Proof. reflexivity. Qed.

(** The scenario of the specification: three reference words, the
    candidates cat, dog and bird. *)
Example scenario_report :
  main ascii_upper (args_of 1) (Ok dic_three) stdin_three =
  ([LoadingDictionary; WordsLoaded 3 3; ReadingCandidates; WordsLoaded 3 3;
    PrintReport
      {| r_language := "deutsch"; r_nonce := []; r_fraction := 1;
         reference_total := 3; reference_sampled := 3;
         candidate_total := 3; candidate_sampled := 3;
         true_positives := 2; false_positives := 1; false_negatives := 1;
         recall_pct := 0x1.0aaab367a0f91p+6%float;
         precision_pct := 0x1.0aaab367a0f91p+6%float |}],
   None).
Proof. vm_compute. reflexivity. Qed.

(** The variant record [RUN=;1] alone gives an empty reference set. *)
Example scenario_variant : load_superdic dic_variant [] 1 = Ok (0, ∅).
Proof. vm_compute. reflexivity. Qed.

(** The candidate lines [A] and [SUPERCALIFRAGIL] are both dropped. *)
Example scenario_lengths : load_candidate ascii_upper stdin_lengths [] 1 = Ok (0, ∅).
Proof. vm_compute. reflexivity. Qed.

(** SHA-256 of the empty message and of [abc]. *)
Example sha256_empty :
  hexlify (sha256 []) = hexlify (be_bytes 32
    0xe3b0c44298fc1c149afbf4c8996fb92427ae41e4649b934ca495991b7852b855).
Proof. vm_compute. reflexivity. Qed.

Example sha256_abc :
  be_uint (sha256 [97; 98; 99]) =
  0xba7816bf8f01cfea414140de5dae2223b00361a396177a9cb410ff61f20015ad.
Proof. vm_compute. reflexivity. Qed.

(** ** C1: non-positive denominators *)

(** With denominator -1 the run is not refused: the dictionary is
    loaded, the candidates are read and the report is printed, with empty
    sampled sets.  With denominator 0 the run does fail, but on the first
    admitted word, after loading has begun. *)
Lemma negative_fraction_runs :
  fraction (args_of (-1)) <= 0 /\
  fraction (args_of 0) <= 0 /\
  main ascii_upper (args_of (-1)) (Ok dic_three) stdin_three =
    ([LoadingDictionary; WordsLoaded 3 0; ReadingCandidates; WordsLoaded 3 0;
      PrintReport (report_of_counts (args_of (-1)) 3 0 3 0 0 0 0)], None) /\
  main ascii_upper (args_of 0) (Ok dic_three) stdin_three =
    ([LoadingDictionary], Some ZeroDivisionError) /\
  ~ rejected_before_loading (main ascii_upper (args_of (-1)) (Ok dic_three) stdin_three) /\
  ~ rejected_before_loading (main ascii_upper (args_of 0) (Ok dic_three) stdin_three).
Proof.
  assert (main ascii_upper (args_of (-1)) (Ok dic_three) stdin_three =
    ([LoadingDictionary; WordsLoaded 3 0; ReadingCandidates; WordsLoaded 3 0;
      PrintReport (report_of_counts (args_of (-1)) 3 0 3 0 0 0 0)], None)) as H1
    by (vm_compute; reflexivity).
  assert (main ascii_upper (args_of 0) (Ok dic_three) stdin_three =
    ([LoadingDictionary], Some ZeroDivisionError)) as H0
    by (vm_compute; reflexivity).
  split; [simpl; lia|]. split; [simpl; lia|]. split; [done|]. split; [done|].
  rewrite H1, H0. unfold rejected_before_loading. cbn [fst snd]. split.
  - by intros [[e ?] _].
  - intros [_ Hno]. apply Hno. by left.
Qed.

(** C1, as the code has it: a non-positive denominator is not refused.
    Whenever the language is supported and the dictionary file is
    there, the dictionary loader is started whatever the denominator.
    With a negative denominator the sampler answers false for every
    word it can encode, with denominator zero it raises a division
    error for every such word; in both cases a loader that returns,
    returns an empty sampled set. *)
Theorem nonpositive_denominator (upper : list Z -> list Z) (args : Args)
    (data : list Z) (stdin : list (list Z)) :
  fraction args <= 0 ->
  language args ∈ SUPPORTED_LANGUAGES ->
  (exists evs, (main upper args (Ok data) stdin).1 = LoadingDictionary :: evs) /\
  ~ rejected_before_loading (main upper args (Ok data) stdin) /\
  (forall word bs,
     utf8_encode (nonce args ++ word) = Ok bs ->
     should_include word (nonce args) (fraction args) =
       if fraction args =? 0 then Raise ZeroDivisionError else Ok false) /\
  (forall (total : Z) (words : wordset),
     load_superdic data (nonce args) (fraction args) = Ok (total, words) \/
     load_candidate upper stdin (nonce args) (fraction args) = Ok (total, words) ->
     words = ∅).
Proof.
  intros Hf Hl.
  destruct (main_starts_loading upper args data stdin Hl) as [evs Hevs].
  split; [by eauto|]. split; [|split].
  - intros [_ Hno]. apply Hno. rewrite Hevs. by left.
  - intros word bs. by apply should_include_nonpositive.
  - intros total words [H|H].
    + destruct (load_superdic_ok_accepted _ _ _ _ H) as (_ & ws & Hws).
      rewrite load_superdic_records in H. destruct (_ =? -1); [done|].
      rewrite (load_superdic_accept _ _ _ _ _ Hws) in H.
      by apply accept_all_nonpositive in H.
    + unfold load_candidate in H. rewrite load_candidate_accept in H.
      by apply accept_all_nonpositive in H.
Qed.

Lemma deutsch_supported : language (args_of (-1)) ∈ SUPPORTED_LANGUAGES.
Proof. apply list_elem_of_In. simpl. tauto. Defined.

Lemma nonpositive_denominator_witness :
  fraction (args_of (-1)) <= 0 /\
  language (args_of (-1)) ∈ SUPPORTED_LANGUAGES /\
  ~ rejected_before_loading (main ascii_upper (args_of (-1)) (Ok dic_three) stdin_three) /\
  should_include CAT [] (-1) = Ok false.
Proof.
  assert (fraction (args_of (-1)) <= 0) as Hf by (simpl; lia).
  split; [exact Hf|]. split; [exact deutsch_supported|].
  destruct (nonpositive_denominator ascii_upper (args_of (-1)) dic_three stdin_three
              Hf deutsch_supported) as (_ & Hrun & Hs & _).
  split; [exact Hrun|]. exact (Hs CAT CAT eq_refl).
Defined.

(** ** C2: denominator 1 *)

(** A word that occurs twice is counted twice and stored once: the
    sampled count is below the total, for a candidate stream and for a
    reference file. *)
Lemma duplicates_counted_twice :
  load_candidate ascii_upper stdin_twice [] 1 = Ok (2, {[CAT]}) /\
  load_superdic dic_twice [] 1 = Ok (2, {[CAT]}) /\
  set_len ({[CAT]} : wordset) <> 2.
Proof. split; [|split]; vm_compute; (reflexivity || discriminate). Qed.

(** C2, as the code has it: with denominator 1 the sampler returns true
    for every (word, salt); each loader then returns the set of all its
    admitted words and, as total, their number counted with repetitions,
    so the sampled count equals the total exactly when no admitted word
    occurs twice in the input (and is smaller otherwise). *)
Theorem fraction_one upper data stream nonce :
  (forall word salt, should_include word salt 1 = Ok true) /\
  (load_candidate upper stream nonce 1 = Ok (counted (candidate_words upper stream)) /\
   set_len (counted (candidate_words upper stream)).2
     <= (counted (candidate_words upper stream)).1 /\
   (set_len (counted (candidate_words upper stream)).2
      = (counted (candidate_words upper stream)).1
    <-> NoDup (candidate_words upper stream))) /\
  (forall total words,
     load_superdic data nonce 1 = Ok (total, words) ->
     exists ws, accepted_words (records data) = Ok ws /\
       (total, words) = counted ws /\
       set_len words <= total /\
       (set_len words = total <-> NoDup ws)).
Proof.
  assert (forall ws, set_len (counted ws).2 <= (counted ws).1 /\
                     (set_len (counted ws).2 = (counted ws).1 <-> NoDup ws)) as Hc.
  { intros ws. unfold counted, set_len. cbn [fst snd].
    pose proof (size_list_le ws). rewrite <- size_list_to_set_iff. lia. }
  split; [done|]. split.
  - split; [apply load_candidate_fraction_1 | apply Hc].
  - intros total words H.
    destruct (load_superdic_ok_accepted _ _ _ _ H) as (Hm & ws & Hws).
    rewrite (load_superdic_fraction_1 data nonce ws Hm Hws) in H.
    exists ws. injection H as <- <-. split; [done|]. split; [done|]. apply (Hc ws).
Qed.

(** ** C3: the report *)




(** ** C4: the sampler *)

(** C4: for a denominator above 1 the sampler returns true exactly when
    the SHA-256 digest of the UTF-8 bytes of the salt followed directly
    by those of the word, read as an unsigned 256-bit integer [h], is
    below [floor (2^256 / denominator)]; the answer is a function of
    (word, salt, denominator) alone. *)
Theorem should_include_spec word salt denominator data :
  1 < denominator ->
  utf8_encode (salt ++ word) = Ok data ->
  let h := be_uint (sha256 data) in
  (exists ds dw, utf8_encode salt = Ok ds /\ utf8_encode word = Ok dw /\ data = ds ++ dw) /\
  0 <= h < 2 ^ 256 /\
  should_include word salt denominator = Ok (h <? 2 ^ 256 / denominator) /\
  (should_include word salt denominator = Ok true <-> h < 2 ^ 256 / denominator) /\
  (forall r1 r2,
     should_include word salt denominator = r1 ->
     should_include word salt denominator = r2 -> r1 = r2).
Proof.
  intros Hd Henc h.
  assert (should_include word salt denominator = Ok (h <? 2 ^ 256 / denominator)) as Hs.
  { rewrite should_include_eq, Henc.
    destruct (denominator =? 1) eqn:E1; [apply Z.eqb_eq in E1; lia|].
    destruct (denominator =? 0) eqn:E0; [apply Z.eqb_eq in E0; lia|]. done. }
  split; [|split; [|split; [|split]]].
  - rewrite utf8_encode_app in Henc.
    destruct (utf8_encode salt) as [ds|e]; simpl in Henc; [|done].
    destruct (utf8_encode word) as [dw|e]; simpl in Henc; [|done].
    injection Henc as <-. eauto.
  - apply sha256_int_range.
  - done.
  - rewrite Hs. split.
    + intros [= E]. by apply Z.ltb_lt.
    + intros E. apply Z.ltb_lt in E. by rewrite E.
  - congruence.
Qed.

(** With the salt [x] and denominator 3, [CAT] hashes above the
    threshold and is left out. *)
Lemma should_include_spec_witness :
  1 < 3 /\
  utf8_encode ([120] ++ CAT) = Ok [120; 67; 65; 84] /\
  should_include CAT [120] 3 = Ok (be_uint (sha256 [120; 67; 65; 84]) <? 2 ^ 256 / 3).
Proof.
  assert (1 < 3) as Hd by lia.
  split; [exact Hd|]. split; [reflexivity|].
  exact (proj1 (proj2 (proj2
    (should_include_spec CAT [120] 3 [120; 67; 65; 84] Hd eq_refl)))).
Defined.

Example should_include_examples :
  should_include CAT [] 2 = Ok true /\ should_include BIRD [] 2 = Ok false /\
  should_include CAT [120] 3 = Ok false /\ should_include DOG [] 3 = Ok false.
Proof. repeat apply conj; vm_compute; reflexivity. Qed.

(** ** C5: recall and precision *)



(** Two of three: [66.6667], as in the scenario of the specification;
    a tie on the fifth decimal goes to the even neighbour. *)
Example rounding_examples :
  py_round (int_truediv 2 3 * 100)%float 4 = 0x1.0aaab367a0f91p+6%float /\
  py_round (int_truediv 1 3 * 100)%float 4 = 0x1.0aaa9930be0dfp+5%float /\
  py_round 0.125%float 2 = 0x1.eb851eb851eb8p-4%float /\
  py_round 0.375%float 2 = 0x1.851eb851eb852p-2%float.
Proof. repeat apply conj; vm_compute; reflexivity. Qed.

(** ** C6: round trip *)

(** C6: a word of 2 to 9 code points without ['='], written as the
    record [WORD=] and encoded as UTF-8, gives a record whose Base64
    content is, byte by byte, the text XOR-ed with byte [i mod 8] of the
    key [7AVFU8PP]; the XOR of the decoder turns that content back into
    the text, and the record, placed after the [[Words]] marker line, is
    decoded with denominator 1 to exactly that word, counted once. *)
Theorem round_trip word text nonce :
  Forall is_scalar word ->
  2 <= len word <= 9 ->
  61 ∉ word ->
  utf8_encode (word ++ EQ_SIGN) = Ok text ->
  (exists masked,
     (forall i : nat,
        masked !! i =
          (fun b => Z.lxor b (nth (i mod 8)%nat [55; 65; 86; 70; 85; 56; 80; 80] 0))
            <$> text !! i) /\
     encode_record text = b64encode masked /\
     b64decode (encode_record text) = Ok masked /\
     xor_key masked = text) /\
  utf8_decode text = word ++ EQ_SIGN /\
  load_superdic (WORDS_MARKER ++ encode_record text) nonce 1 = Ok (1, {[word]}).
Proof.
  intros Hs Hlen Hw Henc. unfold EQ_SIGN in *.
  assert (Forall is_scalar (word ++ [61])) as Hs'.
  { apply Forall_app. split; [done|]. repeat constructor. unfold is_scalar. lia. }
  assert (is_bytes text) as Ht by (by apply (utf8_encode_is_bytes _ _ Hs')).
  assert (text <> []) as Hne.
  { apply (utf8_encode_nonempty (word ++ [61])); [by destruct word | done]. }
  split; [by apply encode_record_masked|].
  split; [by apply utf8_decode_encode|].
  rewrite load_superdic_records, seq_find_prefix, records_after_marker.
  rewrite seq_split_no_cr.
  2: { unfold encode_record. rewrite xor_cycle_xor_key.
       apply b64encode_no_cr. by apply xor_key_is_bytes. }
  cbn [Z.eqb for_each].
  rewrite superdic_line_decode by (by apply encode_record_nonempty).
  rewrite (decode_record_encoded word [] text) by done.
  cbn [mbind result_bind fst snd]. unfold is_variant.
  change (seq_contains VARIANT_1 [] || seq_contains VARIANT_2 []) with false.
  cbn iota. rewrite (proj2 (length_ok_spec word) Hlen).
  unfold accept_word, should_include. simpl. f_equal. f_equal. set_solver.
Qed.

(** A three-byte, a two-byte and two one-byte characters: the word
    [U+20AC U+00E9 a b], whose record is the line [1cP6hfxZMm0=]. *)
Lemma round_trip_witness :
  utf8_encode ([8364; 233; 97; 98] ++ EQ_SIGN) = Ok [226; 130; 172; 195; 169; 97; 98; 61] /\
  encode_record [226; 130; 172; 195; 169; 97; 98; 61]
    = [49; 99; 80; 54; 104; 102; 120; 90; 77; 109; 48; 61] /\
  load_superdic (WORDS_MARKER ++ [49; 99; 80; 54; 104; 102; 120; 90; 77; 109; 48; 61]) [] 1
    = Ok (1, {[ [8364; 233; 97; 98] ]}).
Proof.
  split; [reflexivity|]. split; [reflexivity|].
  refine (proj2 (proj2 (round_trip [8364; 233; 97; 98]
            [226; 130; 172; 195; 169; 97; 98; 61] [] _ _ _ eq_refl))).
  - repeat constructor; unfold is_scalar; lia.
  - unfold len. simpl. lia.
  - intros H. repeat (apply elem_of_cons in H as [H|H]; [discriminate|]).
    by apply elem_of_nil in H.
Defined.

(** ** C7: variant records *)

(** C7: a non-empty record whose text after the first ['='] contains
    [;1] or [;2] anywhere leaves the loader's state (set and total) as it
    was, so the loader returns the same result as on the file without
    that record; a record without these substrings is not dropped by this
    rule: it goes on to the length check and the sampler. *)
Theorem variant_filter nonce fraction line raw word rest :
  line <> [] ->
  b64decode line = Ok raw ->
  utf8_decode (xor_key raw) = word ++ 61 :: rest ->
  61 ∉ word ->
  (is_substring VARIANT_1 rest \/ is_substring VARIANT_2 rest ->
     (forall st, superdic_line nonce fraction st line = Ok st) /\
     (forall before after st,
        for_each (superdic_line nonce fraction) st (before ++ line :: after) =
        for_each (superdic_line nonce fraction) st (before ++ after))) /\
  (~ is_substring VARIANT_1 rest /\ ~ is_substring VARIANT_2 rest ->
     forall st, superdic_line nonce fraction st line =
       if length_ok word then accept_word nonce fraction st word else Ok st).
Proof.
  intros Hline Hraw Htext Hword.
  assert (decode_record line = Ok (word, rest)) as Hrec
    by (apply decode_record_ok; eauto).
  split.
  - intros Hv. apply is_variant_spec in Hv.
    assert (forall st, superdic_line nonce fraction st line = Ok st) as Hskip.
    { intros st. rewrite superdic_line_decode, Hrec by done. simpl. by rewrite Hv. }
    split; [done|]. intros before after st. by apply for_each_skip.
  - intros Hv. apply is_variant_false in Hv. intros st.
    rewrite superdic_line_decode, Hrec by done. simpl. by rewrite Hv.
Qed.

(** The record [RUN=;1]: whatever the state, it is left as it was. *)
Lemma variant_filter_witness :
  b64decode record_RUN_1 = Ok (xor_key (RUN ++ [61; 59; 49])) /\
  utf8_decode (xor_key (xor_key (RUN ++ [61; 59; 49]))) = RUN ++ 61 :: [59; 49] /\
  is_substring VARIANT_1 [59; 49] /\
  forall st, superdic_line [] 2 st record_RUN_1 = Ok st.
Proof.
  assert (is_substring VARIANT_1 [59; 49]) as Hv by (by exists [], []).
  assert (61 ∉ RUN) as Hw.
  { intros H. repeat (apply elem_of_cons in H as [H|H]; [discriminate|]).
    by apply elem_of_nil in H. }
  assert (record_RUN_1 <> []) as Hne by discriminate.
  split; [reflexivity|]. split; [reflexivity|]. split; [exact Hv|].
  exact (proj1 (proj1 (variant_filter [] 2 record_RUN_1
                         (xor_key (RUN ++ [61; 59; 49])) RUN [59; 49]
                         Hne eq_refl eq_refl Hw) (or_introl Hv))).
Defined.

(** ** C8: the length filter *)

(** C8: in both loaders a word shorter than 2 or longer than 9 code
    points changes neither the set nor the total, and a word of 2 to 9
    code points passes the filter (it is counted and handed to the
    sampler); hence every word of a returned set has 2 to 9 code points
    and the returned total is the number of length-valid words. *)
Theorem length_filter upper nonce fraction :
  (forall st line,
     let word := upper (strip line) in
     (len word < 2 \/ 9 < len word ->
        candidate_line upper nonce fraction st line = Ok st) /\
     (2 <= len word <= 9 ->
        candidate_line upper nonce fraction st line = accept_word nonce fraction st word)) /\
  (forall st line word rest,
     line <> [] -> decode_record line = Ok (word, rest) ->
     (len word < 2 \/ 9 < len word ->
        superdic_line nonce fraction st line = Ok st) /\
     (2 <= len word <= 9 -> is_variant rest = false ->
        superdic_line nonce fraction st line = accept_word nonce fraction st word)) /\
  (forall stream total words,
     load_candidate upper stream nonce fraction = Ok (total, words) ->
     total = Z.of_nat (length (candidate_words upper stream)) /\
     forall w, w ∈ words -> 2 <= len w <= 9) /\
  (forall data total words,
     load_superdic data nonce fraction = Ok (total, words) ->
     (exists ws, accepted_words (records data) = Ok ws /\
                 total = Z.of_nat (length ws)) /\
     forall w, w ∈ words -> 2 <= len w <= 9).
Proof.
  split; [|split; [|split]].
  - intros st line word. rewrite candidate_line_word. fold word. split.
    + intros H. apply length_ok_false in H. by rewrite H.
    + intros H. apply length_ok_spec in H. by rewrite H.
  - intros st line word rest Hline Hrec.
    rewrite superdic_line_decode, Hrec by done. simpl. split.
    + intros H. apply length_ok_false in H. rewrite H. by destruct (is_variant rest).
    + intros H Hv. apply length_ok_spec in H. by rewrite H, Hv.
  - intros stream total words H. unfold load_candidate in H.
    rewrite load_candidate_accept in H. apply accept_all_ok in H as [-> Hw].
    split; [lia|]. intros w Hin. apply Hw in Hin as [Hin|[Hin _]]; [set_solver|].
    apply length_ok_spec.
    by apply (proj1 (Forall_forall _ _) (candidate_words_length_ok upper stream)).
  - intros data total words H.
    destruct (load_superdic_ok_accepted _ _ _ _ H) as (_ & ws & Hws).
    rewrite load_superdic_records in H. destruct (_ =? -1); [done|].
    rewrite (load_superdic_accept _ _ _ _ _ Hws) in H.
    apply accept_all_ok in H as [-> Hw]. split; [exists ws; split; [done | lia]|].
    intros w Hin. apply Hw in Hin as [Hin|[Hin _]]; [set_solver|].
    apply length_ok_spec.
    by apply (proj1 (Forall_forall _ _) (accepted_words_length_ok _ _ Hws)).
Qed.

(** ** C9: failures of the decoder *)

(** A file with the marker and the single record [A]: the record is not
    empty and has no decoded text at all, yet the decoder fails, in
    Base64. *)
Lemma truncated_base64_fails :
  load_superdic dic_truncated [] 1 = Raise BinasciiError /\
  is_substring WORDS_MARKER dic_truncated /\
  ~ (exists line, line ∈ records dic_truncated /\ line <> [] /\
       exists raw, b64decode line = Ok raw /\ 61 ∉ utf8_decode (xor_key raw)).
Proof.
  split; [reflexivity|]. split; [by exists [], [65]|].
  intros (line & Hin & _ & raw & Hraw & _).
  change (records dic_truncated) with [[65]] in Hin.
  apply elem_of_cons in Hin as [->|Hin]; [discriminate | by apply elem_of_nil in Hin].
Qed.

(** C9, as the code has it: with a non-zero denominator and a salt that
    UTF-8 can encode, the decoder fails, and then returns nothing,
    exactly when the byte stream has no [[Words]] marker followed by
    CRLF (exit status 1), or some non-empty record is not valid Base64
    (the data stops inside a group of four), or the text of some
    non-empty record has no ['=']; an empty record is skipped without
    error. *)
Theorem decoder_failure data nonce fraction :
  fraction <> 0 ->
  Forall is_scalar nonce ->
  (load_superdic data nonce fraction = Raise (SystemExit 1) <->
     ~ is_substring WORDS_MARKER data) /\
  ((exists e, load_superdic data nonce fraction = Raise e) <->
     ~ is_substring WORDS_MARKER data \/
     exists line, line ∈ records data /\ bad_record line) /\
  (forall st, superdic_line nonce fraction st [] = Ok st) /\
  (forall e, load_superdic data nonce fraction = Raise e ->
     e = SystemExit 1 \/ e = BinasciiError \/ e = ValueError).
Proof.
  intros Hf Hn. rewrite load_superdic_records.
  pose proof (seq_find_absent WORDS_MARKER data) as Hm.
  pose proof (for_each_raise (superdic_line nonce fraction) bad_record (records data)
                (fun st x => superdic_line_bad nonce fraction st x Hf Hn) (0, ∅)) as Hloop.
  assert (forall e,
            for_each (superdic_line nonce fraction) (0, ∅) (records data) = Raise e ->
            e = BinasciiError \/ e = ValueError) as Hexn.
  { apply (for_each_raise_exn (superdic_line nonce fraction)
             (fun e => e = BinasciiError \/ e = ValueError)).
    intros st x e He. apply superdic_line_raise in He as [_ He]; [|done..].
    by apply decode_record_exn in He. }
  destruct (seq_find WORDS_MARKER data =? -1) eqn:E.
  - apply Z.eqb_eq in E. apply Hm in E. split; [|split; [|split]]; [tauto | | done |].
    + split; [by left | by eauto].
    + intros e [= <-]. by left.
  - apply Z.eqb_neq in E. split; [|split; [|split]]; [| | done |].
    + split; [|tauto]. intros H. exfalso. by destruct (Hexn _ H).
    + rewrite Hloop. split; [by right|]. intros [H|H]; [|done].
      exfalso. apply E. by apply Hm.
    + intros e H. right. by apply Hexn.
Qed.

(** The record [CAT], without ['=']: the decoder fails on it. *)
Lemma decoder_failure_witness :
  (2 : Z) <> 0 /\
  bad_record (encode_record CAT) /\
  exists e, load_superdic (WORDS_MARKER ++ encode_record CAT) [] 2 = Raise e.
Proof.
  assert ((2 : Z) <> 0) as Hf by lia.
  assert (bad_record (encode_record CAT)) as Hbad.
  { split; [discriminate|]. right. exists (xor_key CAT). split; [reflexivity|].
    intros H. change (utf8_decode (xor_key (xor_key CAT))) with CAT in H.
    repeat (apply elem_of_cons in H as [H|H]; [discriminate|]).
    by apply elem_of_nil in H. }
  split; [exact Hf|]. split; [exact Hbad|].
  apply (proj2 (proj1 (proj2
    (decoder_failure (WORDS_MARKER ++ encode_record CAT) [] 2 Hf (List.Forall_nil is_scalar))))).
  right. exists (encode_record CAT). split; [|exact Hbad].
  change (records (WORDS_MARKER ++ encode_record CAT)) with [encode_record CAT].
  apply list_elem_of_here.
Defined.

(** ** C10: sampled count and total *)

(** C10: whatever the input, the salt and the denominator, a loader that
    returns gives back a sampled set with at most as many elements as
    its total count, for the dictionary buffer and for the candidate
    stream alike (repeated words included). *)
Theorem sampled_le_total upper data stream nonce fraction total words :
  load_superdic data nonce fraction = Ok (total, words)
  \/ load_candidate upper stream nonce fraction = Ok (total, words) ->
  set_len words <= total.
Proof.
  intros [H|H].
  - unfold load_superdic in H. destruct (_ =? -1); [discriminate|].
    eapply (for_each_invariant size_le_total) in H;
      eauto using superdic_line_size, size_le_total_init.
  - eapply (for_each_invariant size_le_total) in H;
      eauto using candidate_line_size, size_le_total_init.
Qed.

(** The stream [cat, cat] with denominator 1: total 2, one word. *)
Lemma sampled_le_total_witness :
  load_candidate ascii_upper stdin_twice [] 1 = Ok (2, {[CAT]}) /\
  set_len ({[CAT]} : wordset) <= 2.
Proof.
  assert (load_candidate ascii_upper stdin_twice [] 1 = Ok (2, {[CAT]})) as H
    by (vm_compute; reflexivity).
  split; [exact H|].
  exact (sampled_le_total ascii_upper [] stdin_twice [] 1 2 {[CAT]} (or_intror H)).
Defined.

(** * Further properties of the script *)

(** ** The counts of the report (lines 166-180) *)

Lemma size_inter_difference (x y : wordset) :
  (size (y ∩ x) + size (x ∖ y) = size x)%nat.
Proof.
  rewrite <- size_union by set_solver. f_equal.
  apply set_eq. intros w. rewrite elem_of_union, elem_of_intersection, elem_of_difference.
  destruct (decide (w ∈ y)); tauto.
Qed.

(** X1: in every report the true positives and the false negatives add
    up to the sampled reference count, the true positives and the false
    positives to the sampled candidate count; no count is negative and
    the true positives exceed neither sampled count. *)
Theorem report_identities (args : Args) (ref_total candidate_tot : Z)
    (ref candidate : wordset) :
  let r := make_report args ref_total ref candidate_tot candidate in
  true_positives r + false_negatives r = reference_sampled r /\
  true_positives r + false_positives r = candidate_sampled r /\
  0 <= true_positives r <= reference_sampled r /\
  true_positives r <= candidate_sampled r /\
  0 <= false_positives r /\ 0 <= false_negatives r.
Proof.
  cbn. unfold set_len.
  pose proof (size_inter_difference ref candidate) as H1.
  pose proof (size_inter_difference candidate ref) as H2.
  replace (ref ∩ candidate) with (candidate ∩ ref) in H2 by set_solver.
  lia.
Qed.

(** ** What the loaders return, in terms of the full lists *)

(** The reference loader returns the number of its admitted words and
    those of them that the sampler accepts. *)
(** X2: sampling commutes with the comparison.  When both loaders
    return, a word counted as true positive is an admitted word of both
    full lists, a word counted as false positive is a candidate word
    absent from the whole reference list, and a word counted as false
    negative is a reference word absent from the whole candidate list;
    conversely every such word that the sampler accepts is counted. *)
Theorem sampled_comparison_genuine (upper : list Z -> list Z) (data : list Z)
    (stream : list (list Z)) (nonce : list Z) (fraction : Z)
    (ref_total candidate_tot : Z) (ref candidate : wordset) :
  load_superdic data nonce fraction = Ok (ref_total, ref) ->
  load_candidate upper stream nonce fraction = Ok (candidate_tot, candidate) ->
  exists ws, accepted_words (records data) = Ok ws /\
    forall w,
      (w ∈ candidate ∩ ref <->
         (w ∈ candidate_words upper stream /\ w ∈ ws)
         /\ should_include w nonce fraction = Ok true) /\
      (w ∈ candidate ∖ ref <->
         (w ∈ candidate_words upper stream /\ w ∉ ws)
         /\ should_include w nonce fraction = Ok true) /\
      (w ∈ ref ∖ candidate <->
         (w ∈ ws /\ w ∉ candidate_words upper stream)
         /\ should_include w nonce fraction = Ok true).
Proof.
  intros Hr Hc.
  apply load_superdic_sample in Hr as (ws & Hws & _ & Hr).
  apply load_candidate_sample in Hc as [_ Hc].
  exists ws. split; [done|]. intros w.
  rewrite elem_of_intersection, !elem_of_difference, (Hr w), (Hc w). tauto.
Qed.

Lemma sampled_comparison_genuine_witness :
  load_superdic dic_three [] 2 = Ok (3, {[CAT; DOG; CATS]}) /\
  load_candidate ascii_upper stdin_three [] 2 = Ok (3, {[CAT; DOG]}) /\
  exists ws, accepted_words (records dic_three) = Ok ws /\
    forall w,
      (w ∈ ({[CAT; DOG]} : wordset) ∩ {[CAT; DOG; CATS]} <->
         (w ∈ candidate_words ascii_upper stdin_three /\ w ∈ ws)
         /\ should_include w [] 2 = Ok true) /\
      (w ∈ ({[CAT; DOG]} : wordset) ∖ {[CAT; DOG; CATS]} <->
         (w ∈ candidate_words ascii_upper stdin_three /\ w ∉ ws)
         /\ should_include w [] 2 = Ok true) /\
      (w ∈ ({[CAT; DOG; CATS]} : wordset) ∖ {[CAT; DOG]} <->
         (w ∈ ws /\ w ∉ candidate_words ascii_upper stdin_three)
         /\ should_include w [] 2 = Ok true).
Proof.
  assert (load_superdic dic_three [] 2 = Ok (3, {[CAT; DOG; CATS]})) as Hr
    by (vm_compute; reflexivity).
  assert (load_candidate ascii_upper stdin_three [] 2 = Ok (3, {[CAT; DOG]})) as Hc
    by (vm_compute; reflexivity).
  split; [exact Hr|]. split; [exact Hc|].
  exact (sampled_comparison_genuine ascii_upper dic_three stdin_three [] 2 3 3
           {[CAT; DOG; CATS]} {[CAT; DOG]} Hr Hc).
Defined.

(** X3: the totals do not depend on the sampling.  Two runs of a loader
    on the same input that both return, return the same total whatever
    their salts and denominators, and each sampled set holds admitted
    words only. *)
Theorem totals_independent_of_sampling (upper : list Z -> list Z) (data : list Z)
    (stream : list (list Z)) (nonce1 nonce2 : list Z) (fraction1 fraction2 : Z)
    (total1 total2 : Z) (words1 words2 : wordset) :
  (load_superdic data nonce1 fraction1 = Ok (total1, words1) /\
   load_superdic data nonce2 fraction2 = Ok (total2, words2)) \/
  (load_candidate upper stream nonce1 fraction1 = Ok (total1, words1) /\
   load_candidate upper stream nonce2 fraction2 = Ok (total2, words2)) ->
  total1 = total2 /\ 0 <= total1 /\ set_len (words1 ∪ words2) <= total1.
Proof.
  assert (forall (l : list (list Z)) (s1 s2 : wordset),
            (forall w, w ∈ s1 -> w ∈ l) -> (forall w, w ∈ s2 -> w ∈ l) ->
            set_len (s1 ∪ s2) <= Z.of_nat (length l)) as Hsub.
  { intros l s1 s2 H1 H2. unfold set_len.
    pose proof (size_list_le l) as Hl.
    assert (size (s1 ∪ s2) <= size (list_to_set l : wordset))%nat as Hle.
    { apply subseteq_size. intros w Hw. apply elem_of_list_to_set.
      apply elem_of_union in Hw as [?|?]; eauto. }
    lia. }
  intros [[H1 H2]|[H1 H2]].
  - apply load_superdic_sample in H1 as (ws1 & Hws1 & -> & Hw1).
    apply load_superdic_sample in H2 as (ws2 & Hws2 & -> & Hw2).
    assert (ws2 = ws1) as -> by congruence.
    split; [done|]. split; [lia|]. apply Hsub; intros w Hw.
    + by apply Hw1 in Hw as [? _].
    + by apply Hw2 in Hw as [? _].
  - apply load_candidate_sample in H1 as (-> & Hw1).
    apply load_candidate_sample in H2 as (-> & Hw2).
    split; [done|]. split; [lia|]. apply Hsub; intros w Hw.
    + by apply Hw1 in Hw as [? _].
    + by apply Hw2 in Hw as [? _].
Qed.

Lemma totals_independent_of_sampling_witness :
  load_candidate ascii_upper stdin_three [] 1 = Ok (3, {[CAT; DOG; BIRD]}) /\
  load_candidate ascii_upper stdin_three [120] 3 = Ok (3, ∅) /\
  (3 : Z) = 3 /\ 0 <= 3 /\ set_len (({[CAT; DOG; BIRD]} : wordset) ∪ ∅) <= 3.
Proof.
  assert (load_candidate ascii_upper stdin_three [] 1 = Ok (3, {[CAT; DOG; BIRD]})) as H1
    by (vm_compute; reflexivity).
  assert (load_candidate ascii_upper stdin_three [120] 3 = Ok (3, ∅)) as H2
    by (vm_compute; reflexivity).
  split; [exact H1|]. split; [exact H2|].
  exact (totals_independent_of_sampling ascii_upper [] stdin_three [] [120] 1 3 3 3
           {[CAT; DOG; BIRD]} ∅ (or_intror (conj H1 H2))).
Defined.

(** ** The threshold of the sampler (line 98) *)

Lemma threshold_product h d :
  0 < d -> (h < MAX_HASH / d <-> (h + 1) * d <= MAX_HASH).
Proof.
  intros Hd. generalize MAX_HASH. intros M. split.
  - intros H. pose proof (Z.mul_div_le M d Hd). nia.
  - intros H. assert (h + 1 <= M / d); [|lia].
    apply Z.div_le_lower_bound; lia.
Qed.

(** X4: for a denominator [d] above 1 the sampler accepts exactly the
    hash values [h] with [(h + 1) * d <= 2^256], so [floor (2^256 / d)] of
    the [2^256] possible values, never more than one in [d]; a
    denominator above [2^256] accepts nothing. *)
Theorem sampler_threshold word salt denominator data :
  1 < denominator ->
  utf8_encode (salt ++ word) = Ok data ->
  (should_include word salt denominator = Ok true <->
     (be_uint (sha256 data) + 1) * denominator <= 2 ^ 256) /\
  (2 ^ 256 / denominator) * denominator <= 2 ^ 256 /\
  (2 ^ 256 < denominator -> should_include word salt denominator = Ok false).
Proof.
  intros Hd Henc.
  assert (should_include word salt denominator
          = Ok (be_uint (sha256 data) <? MAX_HASH / denominator)) as Hs.
  { rewrite should_include_eq, Henc.
    destruct (denominator =? 1) eqn:E1; [apply Z.eqb_eq in E1; lia|].
    destruct (denominator =? 0) eqn:E0; [apply Z.eqb_eq in E0; lia|]. done. }
  pose proof (sha256_int_range data) as Hh.
  pose proof (threshold_product (be_uint (sha256 data)) denominator ltac:(lia)) as Ht.
  change (2 ^ 256) with MAX_HASH. split; [|split].
  - rewrite Hs, <- Ht. split.
    + intros [= E]. by apply Z.ltb_lt.
    + intros E. apply Z.ltb_lt in E. by rewrite E.
  - rewrite Z.mul_comm. apply Z.mul_div_le. lia.
  - intros Hbig. rewrite Hs. f_equal. apply Z.ltb_ge.
    rewrite Z.div_small by (unfold MAX_HASH in *; lia). lia.
Qed.

Lemma sampler_threshold_witness :
  1 < 2 /\
  (should_include CAT [] 2 = Ok true <-> (be_uint (sha256 CAT) + 1) * 2 <= 2 ^ 256).
Proof.
  assert (1 < 2) as Hd by lia. split; [exact Hd|].
  exact (proj1 (sampler_threshold CAT [] 2 CAT Hd eq_refl)).
Defined.

(** With a smaller denominator the sampler answers whenever it answered
    with the larger one, and accepts whatever it accepted. *)
Lemma should_include_smaller word nonce d1 d2 b2 :
  1 <= d1 <= d2 ->
  should_include word nonce d2 = Ok b2 ->
  exists b1, should_include word nonce d1 = Ok b1 /\ (b2 = true -> b1 = true).
Proof.
  intros Hd. rewrite !should_include_eq.
  destruct (d1 =? 1) eqn:E1; [by eauto|]. apply Z.eqb_neq in E1.
  destruct (d2 =? 1) eqn:E2; [apply Z.eqb_eq in E2; lia|].
  destruct (utf8_encode (nonce ++ word)) as [data|e]; simpl; [|done].
  destruct (d2 =? 0) eqn:E0; [done|].
  destruct (d1 =? 0) eqn:E0'; [apply Z.eqb_eq in E0'; lia|].
  intros [= <-]. eexists. split; [done|].
  rewrite !Z.ltb_lt. intros H.
  assert (MAX_HASH / d2 <= MAX_HASH / d1); [|lia].
  apply Z.div_le_compat_l; [by unfold MAX_HASH | lia].
Qed.

Lemma accept_all_smaller (nonce : list Z) (d1 d2 : Z) (ws : list (list Z)) :
  1 <= d1 <= d2 ->
  forall (total total' : Z) (s1 s2 s2' : wordset),
    s2 ⊆ s1 ->
    for_each (accept_word nonce d2) (total, s2) ws = Ok (total', s2') ->
    exists s1', for_each (accept_word nonce d1) (total, s1) ws = Ok (total', s1')
                /\ s2' ⊆ s1'.
Proof.
  intros Hd. induction ws as [|w ws IH]; intros total total' s1 s2 s2' Hsub.
  - intros [= <- <-]. by eauto.
  - rewrite !for_each_cons.
    destruct (accept_word nonce d2 (total, s2) w) as [[t2 x2]|e] eqn:E; simpl; [|done].
    apply accept_word_ok in E as (b2 & Hb2 & [= -> ->]).
    destruct (should_include_smaller w nonce d1 d2 b2 Hd Hb2) as (b1 & Hb1 & Hb).
    unfold accept_word at 1. rewrite Hb1. simpl. apply IH.
    destruct b2; [rewrite Hb by done; set_solver|]. destruct b1; set_solver.
Qed.

(** X5: samples are nested.  If a loader returns with denominator [d2],
    it also returns with any denominator [d1] between 1 and [d2] (same
    input, same salt), with the same total and a sampled set that
    contains the one for [d2]. *)
Theorem samples_nested (upper : list Z -> list Z) (data : list Z)
    (stream : list (list Z)) (nonce : list Z) (d1 d2 total : Z) (words2 : wordset) :
  1 <= d1 <= d2 ->
  (load_superdic data nonce d2 = Ok (total, words2) ->
   exists words1, load_superdic data nonce d1 = Ok (total, words1) /\ words2 ⊆ words1) /\
  (load_candidate upper stream nonce d2 = Ok (total, words2) ->
   exists words1, load_candidate upper stream nonce d1 = Ok (total, words1)
                  /\ words2 ⊆ words1).
Proof.
  intros Hd. split.
  - intros H. destruct (load_superdic_ok_accepted _ _ _ _ H) as (_ & ws & Hws).
    rewrite load_superdic_records in H. rewrite load_superdic_records.
    destruct (_ =? -1); [done|].
    rewrite (load_superdic_accept _ _ nonce d2 _ Hws) in H.
    rewrite (load_superdic_accept _ _ nonce d1 _ Hws).
    apply (accept_all_smaller nonce d1 d2 ws Hd 0 total ∅ ∅ words2); [done | exact H].
  - unfold load_candidate. rewrite !load_candidate_accept. intros H.
    apply (accept_all_smaller nonce d1 d2 _ Hd 0 total ∅ ∅ words2); [done | exact H].
Qed.

Lemma samples_nested_witness :
  1 <= 2 <= 3 /\
  load_superdic dic_three [] 3 = Ok (3, {[CAT]}) /\
  exists words1, load_superdic dic_three [] 2 = Ok (3, words1) /\ {[CAT]} ⊆ words1.
Proof.
  assert (1 <= 2 <= 3) as Hd by lia.
  assert (load_superdic dic_three [] 3 = Ok (3, {[CAT]})) as H
    by (vm_compute; reflexivity).
  split; [exact Hd|]. split; [exact H|].
  exact (proj1 (samples_nested ascii_upper dic_three [] [] 2 3 3 {[CAT]} Hd) H).
Defined.

(** ** The order of the records and of the lines *)

(** A loop whose iterations can be exchanged returns the same state on
    every rearrangement of its input. *)
Lemma for_each_permutation {S A} (body : S -> A -> result S) (l l' : list A) :
  (forall st x y st1 st2,
     body st x = Ok st1 -> body st1 y = Ok st2 ->
     exists st1', body st y = Ok st1' /\ body st1' x = Ok st2) ->
  Permutation l l' ->
  forall st r, for_each body st l = Ok r -> for_each body st l' = Ok r.
Proof.
  intros Hswap Hp. induction Hp as [|x l l' Hp IH|x y l|l l' l'' Hp1 IH1 Hp2 IH2];
    intros st r; [done| | |by eauto].
  - rewrite !for_each_cons. destruct (body st x) as [st1|e]; simpl; [apply IH | done].
  - rewrite (for_each_cons body st y), (for_each_cons body st x).
    destruct (body st y) as [st1|e] eqn:Ey; cbn [mbind result_bind]; [|done].
    rewrite (for_each_cons body st1 x).
    destruct (body st1 x) as [st2|e] eqn:Ex; cbn [mbind result_bind]; [|done].
    destruct (Hswap st y x st1 st2 Ey Ex) as (st1' & -> & Hy).
    cbn [mbind result_bind]. rewrite (for_each_cons body st1' y), Hy. done.
Qed.

Lemma superdic_line_word_step nonce fraction :
  word_step nonce fraction (superdic_line nonce fraction).
Proof.
  intros line. destruct line as [|b line]; [by left|].
  destruct (decode_record (b :: line)) as [[word rest]|e] eqn:E.
  - destruct (is_variant rest) eqn:Ev; [|destruct (length_ok word) eqn:El].
    + left. intros st. rewrite superdic_line_decode, E by done. simpl. by rewrite Ev.
    + right. left. exists word. intros st.
      rewrite superdic_line_decode, E by done. simpl. by rewrite Ev, El.
    + left. intros st. rewrite superdic_line_decode, E by done. simpl. by rewrite Ev, El.
  - right. right. exists e. intros st. by rewrite superdic_line_decode, E.
Qed.

Lemma candidate_line_word_step upper nonce fraction :
  word_step nonce fraction (candidate_line upper nonce fraction).
Proof.
  intros line. destruct (length_ok (upper (strip line))) eqn:E.
  - right. left. exists (upper (strip line)). intros st.
    by rewrite candidate_line_word, E.
  - left. intros st. by rewrite candidate_line_word, E.
Qed.

Lemma accept_word_swap nonce fraction st w1 w2 st1 st2 :
  accept_word nonce fraction st w1 = Ok st1 ->
  accept_word nonce fraction st1 w2 = Ok st2 ->
  exists st1', accept_word nonce fraction st w2 = Ok st1'
               /\ accept_word nonce fraction st1' w1 = Ok st2.
Proof.
  destruct st as [t s]. intros H1 H2.
  apply accept_word_ok in H1 as (b1 & Hb1 & ->).
  apply accept_word_ok in H2 as (b2 & Hb2 & ->).
  unfold accept_word. rewrite Hb2. simpl. eexists. split; [done|].
  rewrite Hb1. simpl. f_equal. f_equal. destruct b1, b2; set_solver.
Qed.

Lemma word_step_swap nonce fraction body st x y st1 st2 :
  word_step nonce fraction body ->
  body st x = Ok st1 -> body st1 y = Ok st2 ->
  exists st1', body st y = Ok st1' /\ body st1' x = Ok st2.
Proof.
  intros Hb Hx Hy.
  destruct (Hb x) as [Sx|[[wx Ax]|[ex Fx]]], (Hb y) as [Sy|[[wy Ay]|[ey Fy]]];
    try (rewrite Fx in Hx; discriminate); try (rewrite Fy in Hy; discriminate).
  - rewrite Sx in Hx. rewrite Sy in Hy. exists st. rewrite Sy, Sx. split; congruence.
  - rewrite Sx in Hx. injection Hx as <-. exists st2. by rewrite Sx.
  - rewrite Sy in Hy. injection Hy as <-. exists st. by rewrite Sy.
  - rewrite Ax in Hx. rewrite Ay in Hy.
    destruct (accept_word_swap nonce fraction st wx wy st1 st2 Hx Hy) as (st1' & H1 & H2).
    exists st1'. by rewrite Ay, Ax.
Qed.

(** X6: the order of the input does not matter.  A dictionary file whose
    records are those of another file in another order, and a candidate
    stream whose lines are those of another stream in another order,
    give the same total and the same sampled set whenever the loader
    returns. *)
Theorem order_independent (upper : list Z -> list Z) (data data' : list Z)
    (stream stream' : list (list Z)) (nonce : list Z) (fraction : Z)
    (r : Z * gset (list Z)) :
  Permutation (records data) (records data') ->
  is_substring WORDS_MARKER data' ->
  Permutation stream stream' ->
  (load_superdic data nonce fraction = Ok r ->
   load_superdic data' nonce fraction = Ok r) /\
  (load_candidate upper stream nonce fraction = Ok r ->
   load_candidate upper stream' nonce fraction = Ok r).
Proof.
  intros Hrec Hm Hstream. split.
  - rewrite !load_superdic_records.
    destruct (seq_find WORDS_MARKER data =? -1); [done|].
    destruct (seq_find WORDS_MARKER data' =? -1) eqn:E.
    { apply Z.eqb_eq, seq_find_absent in E. tauto. }
    apply for_each_permutation; [|done]. intros st x y st1 st2.
    apply (word_step_swap nonce fraction), superdic_line_word_step.
  - unfold load_candidate. apply for_each_permutation; [|done].
    intros st x y st1 st2.
    apply (word_step_swap nonce fraction), candidate_line_word_step.
Qed.

Lemma order_independent_witness :
  Permutation (records dic_three)
    (records (WORDS_MARKER ++ record_CATS ++ CRLF ++ record_CAT ++ CRLF ++ CRLF
              ++ record_DOG)) /\
  load_superdic dic_three [] 2 = Ok (3, {[CAT; DOG; CATS]}) /\
  load_superdic (WORDS_MARKER ++ record_CATS ++ CRLF ++ record_CAT ++ CRLF ++ CRLF
                 ++ record_DOG) [] 2 = Ok (3, {[CAT; DOG; CATS]}).
Proof.
  assert (Permutation (records dic_three)
    (records (WORDS_MARKER ++ record_CATS ++ CRLF ++ record_CAT ++ CRLF ++ CRLF
              ++ record_DOG))) as Hp.
  { change (Permutation [record_CAT; record_DOG; record_CATS; []]
              [record_CATS; record_CAT; []; record_DOG]).
    apply (Permutation_trans (l' := [record_CATS; record_CAT; record_DOG; []])).
    - apply (Permutation_trans (l' := [record_CAT; record_CATS; record_DOG; []])).
      + apply perm_skip, perm_swap.
      + apply perm_swap.
    - do 2 apply perm_skip. apply perm_swap. }
  assert (load_superdic dic_three [] 2 = Ok (3, {[CAT; DOG; CATS]})) as H
    by (vm_compute; reflexivity).
  split; [exact Hp|]. split; [exact H|].
  refine (proj1 (order_independent ascii_upper dic_three _ [] [] [] 2 _ Hp _ _) H).
  - by exists [], (record_CATS ++ CRLF ++ record_CAT ++ CRLF ++ CRLF ++ record_DOG).
  - apply perm_nil.
Defined.

(** ** What precedes the marker (lines 104-108) *)

Lemma find_from_at_prefix sub post i : find_from sub (sub ++ post) i = i.
Proof.
  assert (starts_with sub (sub ++ post) = true) as H
    by (apply starts_with_spec; eauto).
  destruct (sub ++ post); simpl; by rewrite H.
Qed.

Lemma removelast_app_last (l : list Z) :
  l <> [] -> exists x, l = removelast l ++ [x].
Proof.
  intros Hl. destruct (exists_last Hl) as (l' & x & ->).
  exists x. by rewrite removelast_last.
Qed.

(** The first occurrence: if [sub] does not occur in [pre] followed by
    [sub] without its last element, its first occurrence in
    [pre ++ sub ++ post] is the one shown. *)
Lemma find_from_first sub pre post i :
  ~ is_substring sub (pre ++ removelast sub) ->
  find_from sub (pre ++ sub ++ post) i = i + len pre.
Proof.
  revert i. induction pre as [|p pre IH]; intros i Hno.
  - simpl. rewrite find_from_at_prefix. unfold len. simpl. lia.
  - assert (sub <> []) as Hsub.
    { intros ->. apply Hno. by exists [], (p :: pre ++ removelast []). }
    change (find_from sub ((p :: pre) ++ sub ++ post) i)
      with (if starts_with sub (p :: pre ++ sub ++ post) then i
            else find_from sub (pre ++ sub ++ post) (i + 1)).
    destruct (starts_with sub (p :: pre ++ sub ++ post)) eqn:E.
    + exfalso. apply starts_with_spec in E as [post' E].
      destruct (exists_last Hsub) as (rl & x & ->).
      rewrite removelast_last in Hno. apply Hno.
      assert (length (rl ++ [x]) <= length ((p :: pre) ++ rl))%nat as Hlen
        by (rewrite !length_app; simpl; lia).
      assert (take (length (rl ++ [x])) (((p :: pre) ++ rl) ++ x :: post)
              = take (length (rl ++ [x])) ((rl ++ [x]) ++ post')) as Ht.
      { f_equal. rewrite <- E, <- !app_assoc. done. }
      rewrite take_app_le in Ht by done. rewrite take_app_length in Ht.
      exists [], (drop (length (rl ++ [x])) ((p :: pre) ++ rl)).
      rewrite app_nil_l.
      transitivity (take (length (rl ++ [x])) ((p :: pre) ++ rl)
                    ++ drop (length (rl ++ [x])) ((p :: pre) ++ rl)).
      * symmetry. apply take_drop.
      * by rewrite Ht.
    + rewrite IH.
      * unfold len. simpl length. lia.
      * intros (a & b & Hab). apply Hno. exists (p :: a), b. simpl. by rewrite Hab.
Qed.

(** X7: whatever precedes the first marker is ignored.  If the marker
    does not occur earlier, a file made of a header, the marker line and
    the records loads exactly as the file without the header, and its
    records are what follows the marker. *)
Theorem header_ignored header rest nonce fraction :
  ~ is_substring WORDS_MARKER (header ++ removelast WORDS_MARKER) ->
  records (header ++ WORDS_MARKER ++ rest) = seq_split CRLF rest /\
  load_superdic (header ++ WORDS_MARKER ++ rest) nonce fraction
    = load_superdic (WORDS_MARKER ++ rest) nonce fraction.
Proof.
  intros Hno.
  assert (seq_find WORDS_MARKER (header ++ WORDS_MARKER ++ rest) = len header) as Hf.
  { unfold seq_find. rewrite find_from_first by done. lia. }
  assert (records (header ++ WORDS_MARKER ++ rest) = seq_split CRLF rest) as Hr.
  { unfold records. rewrite Hf. unfold slice_from, len.
    replace (Z.to_nat (Z.of_nat (length header) + Z.of_nat (length WORDS_MARKER)))
      with (length (header ++ WORDS_MARKER)) by (rewrite length_app; lia).
    by rewrite app_assoc, drop_app_length. }
  split; [done|].
  rewrite !load_superdic_records, Hr, records_after_marker, seq_find_prefix, Hf.
  unfold len. destruct (Z.of_nat (length header) =? -1) eqn:E; [|done].
  apply Z.eqb_eq in E. lia.
Qed.

(** The header of [dic_three], a section of its own. *)
Lemma header_ignored_witness :
  ~ is_substring WORDS_MARKER
      ([91; 72; 101; 97; 100; 101; 114; 93; 13; 10; 120; 61; 49; 13; 10]
       ++ removelast WORDS_MARKER) /\
  load_superdic dic_three [] 1
  = load_superdic (WORDS_MARKER ++ record_CAT ++ CRLF ++ record_DOG ++ CRLF
                   ++ record_CATS ++ CRLF) [] 1.
Proof.
  assert (~ is_substring WORDS_MARKER
            ([91; 72; 101; 97; 100; 101; 114; 93; 13; 10; 120; 61; 49; 13; 10]
             ++ removelast WORDS_MARKER)) as H
    by (apply seq_contains_false; vm_compute; reflexivity).
  split; [exact H|].
  exact (proj2 (header_ignored
    [91; 72; 101; 97; 100; 101; 114; 93; 13; 10; 120; 61; 49; 13; 10]
    (record_CAT ++ CRLF ++ record_DOG ++ CRLF ++ record_CATS ++ CRLF) [] 1 H)).
Defined.

(** ** The XOR layer (line 114) *)

(** X8: the XOR layer is its own inverse, keeps the number of bytes and
    the byte range, and therefore loses nothing: two byte strings with
    the same image are equal. *)
Theorem xor_layer (l l' : list Z) :
  xor_key (xor_key l) = l /\
  length (xor_key l) = length l /\
  (is_bytes (xor_key l) <-> is_bytes l) /\
  (xor_key l = xor_key l' <-> l = l').
Proof.
  split; [apply xor_key_involutive|]. split.
  { unfold xor_key. apply length_imap. }
  split.
  - split; [|apply xor_key_is_bytes].
    intros H. apply xor_key_is_bytes in H. by rewrite xor_key_involutive in H.
  - split; [|by intros ->].
    intros H. rewrite <- (xor_key_involutive l), <- (xor_key_involutive l'). by rewrite H.
Qed.

(** ** What a run writes (lines 152-185) *)

Ltac event_in H :=
  repeat (apply elem_of_cons in H as [H|H]; [discriminate|]);
  by apply elem_of_nil in H.

(** X9: a report is printed only by a run in which everything
    succeeded.  A run ends normally exactly when it prints a report; the
    report is then the last thing written and is computed from what the
    two loaders returned; a run that fails prints none; an unsupported
    language ends the run at once; and the candidates are read only after
    the dictionary has loaded. *)
Theorem report_only_on_success (upper : list Z -> list Z) (args : Args)
    (dic : result (list Z)) (stdin : list (list Z)) :
  let run := main upper args dic stdin in
  (run.2 = None <-> exists r, PrintReport r ∈ run.1) /\
  (forall r, PrintReport r ∈ run.1 ->
     last run.1 = Some (PrintReport r) /\
     language args ∈ SUPPORTED_LANGUAGES /\
     exists data ref_total ref candidate_tot candidate,
       dic = Ok data /\
       load_superdic data (nonce args) (fraction args) = Ok (ref_total, ref) /\
       load_candidate upper stdin (nonce args) (fraction args)
         = Ok (candidate_tot, candidate) /\
       r = make_report args ref_total ref candidate_tot candidate) /\
  (language args ∉ SUPPORTED_LANGUAGES ->
     run = ([ErrUnsupportedLanguage], Some (SystemExit 1))) /\
  (ReadingCandidates ∈ run.1 ->
     exists data st, dic = Ok data /\
       load_superdic data (nonce args) (fraction args) = Ok st).
Proof.
  unfold main. destruct (decide (language args ∈ SUPPORTED_LANGUAGES)) as [Hl|Hl].
  2: { rewrite bool_decide_false by done. cbn.
       split; [split; [done|]; intros [r Hr]; event_in Hr|].
       split; [intros r Hr; event_in Hr|].
       split; [done|]. intros Hr. event_in Hr. }
  rewrite bool_decide_true by done. cbn [negb].
  destruct dic as [data|e].
  2: { cbn. split; [split; [done|]; intros [r Hr]; event_in Hr|].
       split; [intros r Hr; event_in Hr|].
       split; [done|]. intros Hr. event_in Hr. }
  destruct (load_superdic data (nonce args) (fraction args)) as [[rt ref]|e] eqn:Er.
  2: { destruct e; cbn;
         (split; [split; [done|]; intros [r Hr]; event_in Hr|];
          split; [intros r Hr; event_in Hr|];
          split; [done|]; intros Hr; event_in Hr). }
  destruct (load_candidate upper stdin (nonce args) (fraction args))
    as [[ct cand]|e] eqn:Ec; cbn.
  - split; [split; [|done]; intros _; eexists; do 4 right; by left|].
    split; [|split; [done | by eauto]].
    intros r Hr.
    repeat (apply elem_of_cons in Hr as [Hr|Hr]; [try discriminate|]);
      [|by apply elem_of_nil in Hr].
    injection Hr as ->. split; [done|]. split; [done|].
    exists data, rt, ref, ct, cand. done.
  - split; [split; [done|]; intros [r Hr]; event_in Hr|].
    split; [intros r Hr; event_in Hr|].
    split; [done | by eauto].
Qed.

(** ** White space around candidate words (line 133) *)

Lemma lstrip_spaces a s :
  Forall (fun c => is_space c = true) a -> lstrip (a ++ s) = lstrip s.
Proof. induction 1 as [|c a Hc Ha IH]; simpl; [done|]. by rewrite Hc. Qed.

Lemma lstrip_all_spaces a :
  Forall (fun c => is_space c = true) a -> lstrip a = [].
Proof. intros Ha. rewrite <- (app_nil_r a). by rewrite lstrip_spaces. Qed.

Lemma lstrip_app s b :
  lstrip (s ++ b) = match lstrip s with [] => lstrip b | _ => lstrip s ++ b end.
Proof.
  induction s as [|c s IH]; simpl.
  - by destruct (lstrip b).
  - destruct (is_space c); [done|]. done.
Qed.

Lemma strip_spaces a s b :
  Forall (fun c => is_space c = true) a ->
  Forall (fun c => is_space c = true) b ->
  strip (a ++ s ++ b) = strip s.
Proof.
  intros Ha Hb. unfold strip. rewrite lstrip_spaces, lstrip_app by done.
  rewrite (lstrip_all_spaces b) by done.
  destruct (lstrip s) as [|c t] eqn:E; [done|].
  rewrite rev_app_distr, lstrip_spaces; [done|]. by apply Forall_rev.
Qed.

(** X10: white space around a candidate word does not matter.  Spaces,
    tabs, carriage returns and line feeds (any character of
    [str.isspace]) added before or after the lines of a stream change
    neither the total nor the sampled set nor a failure. *)
Theorem whitespace_ignored upper stream stream' nonce fraction :
  Forall2 padded stream stream' ->
  load_candidate upper stream' nonce fraction = load_candidate upper stream nonce fraction.
Proof.
  unfold load_candidate. generalize (0, ∅ : gset (list Z)).
  intros st H. revert st.
  induction H as [|line line' stream stream' (a & b & Ha & Hb & ->) H IH]; intros st;
    [done|].
  rewrite !for_each_cons, !candidate_line_word, strip_spaces by done.
  destruct (if length_ok (upper (strip line))
            then accept_word nonce fraction st (upper (strip line)) else Ok st);
    simpl; [apply IH | done].
Qed.

(** Windows line ends and indentation. *)
Lemma whitespace_ignored_witness :
  Forall2 padded [CAT; DOG; BIRD]
    [[32; 9] ++ CAT ++ [13; 10]; [] ++ DOG ++ [13; 10]; [] ++ BIRD ++ []] /\
  load_candidate ascii_upper
    [[32; 9] ++ CAT ++ [13; 10]; [] ++ DOG ++ [13; 10]; [] ++ BIRD ++ []] [] 1
  = load_candidate ascii_upper [CAT; DOG; BIRD] [] 1.
Proof.
  assert (Forall2 padded [CAT; DOG; BIRD]
    [[32; 9] ++ CAT ++ [13; 10]; [] ++ DOG ++ [13; 10]; [] ++ BIRD ++ []]) as H.
  { assert (forall a : list Z,
              forallb is_space a = true -> Forall (fun c => is_space c = true) a) as Hs.
    { intros a Ha. apply Forall_forall. intros c Hc.
      apply (proj1 (forallb_forall _ _) Ha). by apply list_elem_of_In. }
    constructor; [|constructor; [|constructor; [|constructor]]].
    - exists [32; 9], [13; 10]. split; [by apply Hs|]. split; [by apply Hs | done].
    - exists [], [13; 10]. split; [by apply Hs|]. split; [by apply Hs | done].
    - exists [], []. split; [by apply Hs|]. split; [by apply Hs | done]. }
  split; [exact H|].
  exact (whitespace_ignored ascii_upper _ _ [] 1 H).
Defined.

(** ** Fetching the dictionary (lines 60-91) *)

Section Fetch.

Variable SCRIPT_DIR : string.
Variable urlopen : string -> option (list Z).
Variable ZipFile : list Z -> option (list (string * zip_member)).
Variable writable : string -> bool.

Abbreviation fetch := (find_or_download_dic SCRIPT_DIR urlopen ZipFile writable).
Abbreviation path_of := (dic_path SCRIPT_DIR).

Lemma fetch_cached language (fs : gmap string (list Z)) :
  is_Some (fs !! path_of language) -> fetch language fs = ([], fs, Ok (path_of language)).
Proof. intros H. unfold find_or_download_dic. by rewrite bool_decide_true. Qed.

Lemma extract_to_cases path m (fs fs' : gmap string (list Z)) r :
  extract_to writable path m fs = (fs', r) ->
  (exists data, m = Some (Content data) /\ writable path = true /\
                fs' = <[path := data]> fs /\ r = Ok path) \/
  (r = Raise (SystemExit 1) /\
   (fs' = fs \/ (m = Some ReadFails /\ writable path = true /\ fs' = <[path := []]> fs))).
Proof.
  unfold extract_to. destruct m as [[| |data]|]; [| | |];
    try destruct (writable path) eqn:W; intros [= <- <-]; eauto 10.
Qed.

(** X11: when [find_or_download_dic] returns a path, it is the path of
    [language.dic] beside the script and that file exists afterwards, so
    a second call returns the same path without downloading or writing
    anything.  If the file was already there, nothing was downloaded or
    written; otherwise it now holds the data of the archive member
    stored under the first name ending in [.dic]. *)
Theorem fetch_success language (fs fs' : gmap string (list Z)) evs path :
  fetch language fs = (evs, fs', Ok path) ->
  path = path_of language /\
  (exists data, read_file path fs' = Some data) /\
  fetch language fs' = ([], fs', Ok path) /\
  (is_Some (fs !! path) -> evs = [] /\ fs' = fs) /\
  (fs !! path = None ->
     exists zip_bytes zf dic_name rest data,
       urlopen (dic_url language) = Some zip_bytes /\
       ZipFile zip_bytes = Some zf /\
       filter (fun n => ends_with ".dic" n = true) (namelist zf) = dic_name :: rest /\
       zip_getinfo dic_name zf = Some (Content data) /\
       fs' = <[path := data]> fs /\
       evs = [DownloadingFrom (dic_url language); Extracting dic_name path]).
Proof.
  unfold find_or_download_dic.
  destruct (decide (is_Some (fs !! path_of language))) as [Hc|Hc].
  - rewrite bool_decide_true by done. intros [= <- <- <-].
    split; [done|]. split; [by destruct Hc as [d ?]; exists d|].
    split; [by rewrite bool_decide_true|]. split; [done|].
    intros Hn. rewrite Hn in Hc. by destruct Hc.
  - rewrite bool_decide_false by done.
    destruct (urlopen (dic_url language)) as [zip_bytes|] eqn:Eu; [|done].
    destruct (ZipFile zip_bytes) as [zf|] eqn:Ez; [|done].
    destruct (filter _ (namelist zf)) as [|dic_name rest] eqn:Ef; [done|].
    destruct (extract_to writable (path_of language) (zip_getinfo dic_name zf) fs)
      as [fs1 r] eqn:Ex.
    intros [= <- <- ->].
    apply extract_to_cases in Ex as [(data & Hm & Hw & -> & [= ->])|[? _]]; [|done].
    split; [done|]. split; [exists data; apply lookup_insert_eq|].
    split.
    { rewrite bool_decide_true; [done|]. rewrite lookup_insert_eq. by eexists. }
    split; [intros H; by destruct Hc|]. intros _.
    exists zip_bytes, zf, dic_name, rest, data. done.
Qed.

(** X12: every failure of [find_or_download_dic] is an exit with status
    1, with a message after the download notice; it happens only when
    the file was missing, and leaves the files as they were, except that
    a member that cannot be read leaves an empty file in its place. *)
Theorem fetch_failure language (fs fs' : gmap string (list Z)) evs e :
  fetch language fs = (evs, fs', Raise e) ->
  e = SystemExit 1 /\
  fs !! path_of language = None /\
  (exists msg evs', evs = DownloadingFrom (dic_url language) :: evs' ++ [msg] /\
     (msg = ErrDownloadFailed \/ msg = ErrNoDicInZip \/ msg = ErrExtractionFailed)) /\
  (fs' = fs \/ fs' = <[path_of language := []]> fs).
Proof.
  unfold find_or_download_dic.
  destruct (decide (is_Some (fs !! path_of language))) as [Hc|Hc].
  { by rewrite bool_decide_true. }
  rewrite bool_decide_false by done.
  assert (fs !! path_of language = None) as Hn
    by (destruct (fs !! path_of language) eqn:E; [exfalso; apply Hc; eauto | done]).
  destruct (urlopen (dic_url language)) as [zip_bytes|] eqn:Eu.
  2: { intros [= <- <- <-]. repeat split; eauto. exists ErrDownloadFailed, []. eauto. }
  destruct (ZipFile zip_bytes) as [zf|] eqn:Ez.
  2: { intros [= <- <- <-]. repeat split; eauto. exists ErrExtractionFailed, []. eauto. }
  destruct (filter _ (namelist zf)) as [|dic_name rest] eqn:Ef.
  { intros [= <- <- <-]. repeat split; eauto. exists ErrNoDicInZip, []. eauto. }
  destruct (extract_to writable (path_of language) (zip_getinfo dic_name zf) fs)
    as [fs1 r] eqn:Ex.
  intros [= <- <- ->].
  apply extract_to_cases in Ex as [(data & _ & _ & _ & [=])|[[= <-] Hfs]].
  split; [done|]. split; [done|]. split.
  - exists ErrExtractionFailed, [Extracting dic_name (path_of language)]. eauto.
  - destruct Hfs as [->|(_ & _ & ->)]; eauto.
Qed.

(** The files after a call: unchanged, or with the one new file. *)
Lemma fetch_files language (fs : gmap string (list Z)) :
  (fetch language fs).1.2 = fs \/
  (fs !! path_of language = None /\
   exists data, (fetch language fs).1.2 = <[path_of language := data]> fs).
Proof.
  unfold find_or_download_dic.
  destruct (decide (is_Some (fs !! path_of language))) as [Hc|Hc].
  { rewrite bool_decide_true by done. by left. }
  rewrite bool_decide_false by done.
  assert (fs !! path_of language = None) as Hn
    by (destruct (fs !! path_of language) eqn:E; [exfalso; apply Hc; eauto | done]).
  destruct (urlopen (dic_url language)) as [zip_bytes|]; [|by left].
  destruct (ZipFile zip_bytes) as [zf|]; [|by left].
  destruct (filter _ (namelist zf)) as [|dic_name rest]; [by left|].
  destruct (extract_to writable (path_of language) (zip_getinfo dic_name zf) fs)
    as [fs1 r] eqn:Ex. cbn.
  apply extract_to_cases in Ex as [(data & _ & _ & -> & _)|[_ [->|(_ & _ & ->)]]];
    eauto.
Qed.

(** X13: no file on disk is ever modified or removed, and no file other
    than [language.dic] beside the script is created, whether the call
    succeeds or fails. *)
Theorem fetch_preserves_files language (fs : gmap string (list Z)) :
  let fs' := (find_or_download_dic SCRIPT_DIR urlopen ZipFile writable language fs).1.2 in
  (forall q data, fs !! q = Some data -> fs' !! q = Some data) /\
  (forall q, q <> dic_path SCRIPT_DIR language -> fs' !! q = fs !! q).
Proof.
  cbn. destruct (fetch_files language fs) as [->|(Hn & data & ->)]; [done|].
  split.
  - intros q d Hq. rewrite lookup_insert_ne; [done|]. congruence.
  - intros q Hq. by rewrite lookup_insert_ne.
Qed.

(** X14: a member that opens but cannot be read poisons the cache.  The
    call exits with status 1 after creating the destination, which stays
    behind empty; the next call takes that empty file for the dictionary,
    and [load_superdic] then stops for want of the [[Words]] section,
    without any new attempt to download. *)
Theorem unreadable_member_poisons_cache language (fs : gmap string (list Z))
    zip_bytes zf dic_name rest nonce fraction :
  fs !! path_of language = None ->
  urlopen (dic_url language) = Some zip_bytes ->
  ZipFile zip_bytes = Some zf ->
  filter (fun n => ends_with ".dic" n = true) (namelist zf) = dic_name :: rest ->
  zip_getinfo dic_name zf = Some ReadFails ->
  writable (path_of language) = true ->
  let fs' := <[path_of language := []]> fs in
  fetch language fs =
    ([DownloadingFrom (dic_url language); Extracting dic_name (path_of language);
      ErrExtractionFailed], fs', Raise (SystemExit 1)) /\
  fetch language fs' = ([], fs', Ok (path_of language)) /\
  read_file (path_of language) fs' = Some [] /\
  load_superdic [] nonce fraction = Raise (SystemExit 1).
Proof.
  intros Hn Hu Hz Hf Hm Hw fs'.
  assert (fs' !! path_of language = Some []) as Hp by apply lookup_insert_eq.
  split; [|split; [|split; [done | done]]].
  - unfold find_or_download_dic. rewrite bool_decide_false, Hu, Hz, Hf.
    + unfold extract_to. by rewrite Hm, Hw.
    + rewrite Hn. by intros [? ?].
  - apply fetch_cached. rewrite Hp. by eexists.
Qed.

End Fetch.

Lemma fetch_success_witness :
  find_or_download_dic "/opt/oracle" (fun _ => Some [80; 75]) (fun _ => Some example_zip)
    (fun _ => true) "deutsch" ∅
  = ([DownloadingFrom "https://github.com/Scrabble3D/Dictionaries/raw/main/deutsch.dic.zip";
      Extracting "deutsch.dic" "/opt/oracle/deutsch.dic"],
     {["/opt/oracle/deutsch.dic"%string := dic_three]}, Ok "/opt/oracle/deutsch.dic"%string) /\
  find_or_download_dic "/opt/oracle" (fun _ => Some [80; 75]) (fun _ => Some example_zip)
    (fun _ => true) "deutsch" {["/opt/oracle/deutsch.dic"%string := dic_three]}
  = ([], {["/opt/oracle/deutsch.dic"%string := dic_three]}, Ok "/opt/oracle/deutsch.dic"%string).
Proof.
  assert (find_or_download_dic "/opt/oracle" (fun _ => Some [80; 75])
            (fun _ => Some example_zip) (fun _ => true) "deutsch" ∅
          = ([DownloadingFrom
                "https://github.com/Scrabble3D/Dictionaries/raw/main/deutsch.dic.zip";
              Extracting "deutsch.dic" "/opt/oracle/deutsch.dic"],
             {["/opt/oracle/deutsch.dic"%string := dic_three]},
             Ok "/opt/oracle/deutsch.dic"%string)) as H
    by (vm_compute; reflexivity).
  split; [exact H|].
  exact (proj1 (proj2 (proj2 (fetch_success _ _ _ _ _ _ _ _ _ H)))).
Defined.

Lemma fetch_failure_witness :
  find_or_download_dic "/opt/oracle" (fun _ => None) (fun _ => None)
    (fun _ => true) "deutsch" ∅
  = ([DownloadingFrom "https://github.com/Scrabble3D/Dictionaries/raw/main/deutsch.dic.zip";
      ErrDownloadFailed], ∅, Raise (SystemExit 1)) /\
  (∅ : gmap string (list Z)) !! dic_path "/opt/oracle" "deutsch" = None.
Proof.
  assert (find_or_download_dic "/opt/oracle" (fun _ => None) (fun _ => None)
            (fun _ => true) "deutsch" ∅
          = ([DownloadingFrom
                "https://github.com/Scrabble3D/Dictionaries/raw/main/deutsch.dic.zip";
              ErrDownloadFailed], ∅, Raise (SystemExit 1))) as H
    by (vm_compute; reflexivity).
  split; [exact H|].
  exact (proj1 (proj2 (fetch_failure _ _ _ _ _ _ _ _ _ H))).
Defined.

Lemma unreadable_member_poisons_cache_witness :
  find_or_download_dic "/opt/oracle" (fun _ => Some [80; 75]) (fun _ => Some broken_zip)
    (fun _ => true) "deutsch" {["/opt/oracle/deutsch.dic"%string := []]}
  = ([], {["/opt/oracle/deutsch.dic"%string := []]}, Ok "/opt/oracle/deutsch.dic"%string).
Proof.
  refine (proj1 (proj2 (unreadable_member_poisons_cache "/opt/oracle"
    (fun _ => Some [80; 75]) (fun _ => Some broken_zip) (fun _ => true) "deutsch" ∅
    [80; 75] broken_zip "deutsch.dic" [] [] 1 _ _ _ _ _ _)));
    vm_compute; reflexivity.
Defined.

(** ** Records with a remainder (lines 114-124) *)

(** X15: round trip for a whole record.  The text [WORD=REST], encoded
    as UTF-8, gives a record whose Base64 content is, byte by byte, the
    text XOR-ed with byte [i mod 8] of the key [7AVFU8PP]; the loader
    splits the record at its first ['='] into [WORD] and [REST], also
    when [REST] holds further ['='] signs, then drops it when [REST] is
    tagged as a variant or [WORD] has a wrong length, and counts and
    samples [WORD] otherwise. *)
Theorem record_round_trip word rest text nonce fraction st :
  Forall is_scalar (word ++ 61 :: rest) ->
  61 ∉ word ->
  utf8_encode (word ++ 61 :: rest) = Ok text ->
  (exists masked,
     (forall i : nat,
        masked !! i =
          (fun b => Z.lxor b (nth (i mod 8)%nat [55; 65; 86; 70; 85; 56; 80; 80] 0))
            <$> text !! i) /\
     encode_record text = b64encode masked /\
     b64decode (encode_record text) = Ok masked /\
     xor_key masked = text) /\
  decode_record (encode_record text) = Ok (word, rest) /\
  superdic_line nonce fraction st (encode_record text) =
    if is_variant rest then Ok st
    else if length_ok word then accept_word nonce fraction st word
    else Ok st.
Proof.
  intros Hs Hw Henc.
  assert (decode_record (encode_record text) = Ok (word, rest)) as Hrec
    by by apply decode_record_encoded.
  split; [apply encode_record_masked; by apply (utf8_encode_is_bytes _ _ Hs)|].
  split; [done|].
  rewrite superdic_line_decode, Hrec; [done|].
  apply encode_record_nonempty, (utf8_encode_nonempty (word ++ 61 :: rest)); [|done].
  by destruct word.
Qed.

(** The record [CAT=A=B;2], the line [dAACexQFEmsF]: word [CAT],
    remainder [A=B;2], a variant, which the loader passes over. *)
Lemma record_round_trip_witness :
  utf8_encode (CAT ++ 61 :: [65; 61; 66; 59; 50]) = Ok (CAT ++ 61 :: [65; 61; 66; 59; 50]) /\
  encode_record (CAT ++ 61 :: [65; 61; 66; 59; 50])
    = [100; 65; 65; 67; 101; 120; 81; 70; 69; 109; 115; 70] /\
  decode_record [100; 65; 65; 67; 101; 120; 81; 70; 69; 109; 115; 70]
    = Ok (CAT, [65; 61; 66; 59; 50]) /\
  superdic_line [] 1 (0, ∅) [100; 65; 65; 67; 101; 120; 81; 70; 69; 109; 115; 70]
    = Ok (0, ∅).
Proof.
  split; [reflexivity|]. split; [reflexivity|].
  refine (proj2 (record_round_trip CAT [65; 61; 66; 59; 50] _ [] 1 (0, ∅) _ _ eq_refl)).
  - repeat (constructor; [unfold is_scalar; lia|]). constructor.
  - intros H. repeat (apply elem_of_cons in H as [H|H]; [discriminate|]).
    by apply elem_of_nil in H.
Defined.

(** ** Bytes outside the Base64 alphabet (line 114) *)

Lemma a2b_loop_junk c l1 l2 : forall st,
  c <> 61 -> table_a2b_base64 c = 64 ->
  a2b_loop st (l1 ++ c :: l2) = a2b_loop st (l1 ++ l2).
Proof.
  intros st Hc Ht. revert st. induction l1 as [|b l1 IH]; intros st.
  - cbn [app a2b_loop]. rewrite Ht.
    destruct (c =? 61) eqn:E; [by apply Z.eqb_eq in E | done].
  - cbn [app a2b_loop].
    repeat match goal with
           | |- context [if ?b then _ else _] => destruct b
           end; try done; apply IH.
Qed.

(** X16: a byte that is neither a Base64 character nor the pad, such as
    a blank, a lone line feed or any byte above 127, is passed over
    wherever it stands in a record, so the record is processed as if the
    byte were absent, provided something is left of the record; a record
    made of such bytes alone is not empty and fails for want of ['=']. *)
Theorem junk_in_record_ignored c l1 l2 nonce fraction st :
  c <> 61 ->
  table_a2b_base64 c = 64 ->
  (l1 ++ l2 <> [] ->
   superdic_line nonce fraction st (l1 ++ c :: l2)
   = superdic_line nonce fraction st (l1 ++ l2)) /\
  superdic_line nonce fraction st [c] = Raise ValueError.
Proof.
  intros Hc Ht. split.
  - intros Hne. rewrite !superdic_line_decode by (done || by destruct l1).
    unfold decode_record, b64decode. by rewrite a2b_loop_junk.
  - cbn. rewrite Ht. destruct (c =? 61) eqn:E; [by apply Z.eqb_eq in E | done].
Qed.

(** A line feed inside the record [CAT=]. *)
Lemma junk_in_record_ignored_witness :
  (10 : Z) <> 61 /\ table_a2b_base64 10 = 64 /\
  superdic_line [] 1 (0, ∅) ([100; 65; 65; 67] ++ 10 :: [101; 119; 61; 61])
  = superdic_line [] 1 (0, ∅) record_CAT.
Proof.
  assert ((10 : Z) <> 61) as Hc by lia.
  split; [exact Hc|]. split; [reflexivity|].
  refine (proj1 (junk_in_record_ignored 10 [100; 65; 65; 67] [101; 119; 61; 61]
                   [] 1 (0, ∅) Hc eq_refl) _).
  discriminate.
Defined.

(** ** The reference words *)

(** X17: every word of a reference set the loader returns is free of
    ['='], is made of code points that UTF-8 can encode (invalid bytes
    of the file have become U+FFFD, never a surrogate), and is one of the
    words admitted from the file. *)
Theorem reference_words_wellformed (data nonce : list Z) (fraction total : Z)
    (words : gset (list Z)) (w : list Z) :
  load_superdic data nonce fraction = Ok (total, words) ->
  w ∈ words ->
  (61 ∉ w) /\ Forall is_scalar w /\ (exists bs, utf8_encode w = Ok bs) /\
  exists line rest, line ∈ records data /\ decode_record line = Ok (w, rest).
Proof.
  intros H Hw.
  assert (exists line rest, line ∈ records data /\ decode_record line = Ok (w, rest))
    as (line & rest & Hl & Hd).
  { rewrite load_superdic_records in H. destruct (_ =? -1); [done|].
    revert H Hw. generalize (records data). intros lines.
    assert (forall st st' : Z * gset (list Z),
              for_each (superdic_line nonce fraction) st lines = Ok st' ->
              w ∈ st'.2 ->
              w ∈ st.2 \/ exists line rest, line ∈ lines /\ decode_record line = Ok (w, rest))
      as Hinv.
    { induction lines as [|line lines IH]; intros st st'.
      - intros [= <-]. by left.
      - rewrite for_each_cons.
        destruct (superdic_line nonce fraction st line) as [st1|e] eqn:E; simpl; [|done].
        intros H Hw. destruct (IH _ _ H Hw) as [Hin|(l & r & Hl & Hd)].
        + destruct line as [|b line]; [injection E as <-; by left|].
          rewrite superdic_line_decode in E by done.
          destruct (decode_record (b :: line)) as [[word rest]|e] eqn:Ed; simpl in E;
            [|done].
          destruct (is_variant rest); [injection E as <-; by left|].
          destruct (length_ok word); [|injection E as <-; by left].
          destruct st as [t s]. apply accept_word_ok in E as (inc & _ & ->).
          destruct inc; [|by left]. simpl in Hin.
          apply elem_of_union in Hin as [Hin|Hin]; [|by left].
          apply elem_of_singleton in Hin as ->. right.
          exists (b :: line), rest. split; [by left | done].
        + right. exists l, r. split; [by right | done]. }
    intros H Hw. destruct (Hinv _ _ H Hw) as [Hin|?]; [|done].
    by apply not_elem_of_empty in Hin. }
  pose proof (decode_record_scalar _ _ _ Hd) as Hs.
  apply decode_record_ok in Hd as Hd'. destruct Hd' as (raw & _ & _ & Hno).
  split; [done|]. split; [done|]. split; [by apply utf8_encode_scalar|].
  by exists line, rest.
Qed.

Lemma reference_words_wellformed_witness :
  load_superdic dic_three [] 2 = Ok (3, {[CAT; DOG; CATS]}) /\
  CATS ∈ ({[CAT; DOG; CATS]} : gset (list Z)) /\
  61 ∉ CATS.
Proof.
  assert (load_superdic dic_three [] 2 = Ok (3, {[CAT; DOG; CATS]})) as H
    by (vm_compute; reflexivity).
  assert (CATS ∈ ({[CAT; DOG; CATS]} : gset (list Z))) as Hw.
  { apply elem_of_union. right. by apply elem_of_singleton. }
  split; [exact H|]. split; [exact Hw|].
  exact (proj1 (reference_words_wellformed dic_three [] 2 3 _ CATS H Hw)).
Defined.
